(** * channels.hpp: the single-slot channel and the buffered channel

    A shallow embedding of [channels::channel<Type>] and
    [channels::buffered_channel<Type>] (src/channels.hpp), and the properties
    of their state machines; then the thread pool built on the buffered
    channel (src/examples/threadpool.cpp).

    Every public member function takes the object's mutex for its whole
    body and either parks in a condition-variable wait (the mutex is given
    back, nothing else has happened) or runs its critical section to the
    end.  A member function is therefore embedded as one atomic step on the
    object's fields: a function from the fields before the call to an
    outcome, the fields after the call and the notifications sent. A call
    that parks is the outcome [waiting]; when another thread later makes its
    predicate true, the parked call goes on exactly as the same call started
    at that moment, so the runs of the object are the sequences of such
    steps. *)

From Stdlib Require Import ZArith List Bool String Lia.
From stdpp Require Import base list.
Import ListNotations.

Local Open Scope Z_scope.

(** ** Shared vocabulary: errors and status values *)

Inductive channel_error : Type :=
| illegal_write
| invalid_size.

Definition channel_error_eqb (a b : channel_error) : bool :=
  match a, b with
  | illegal_write, illegal_write => true
  | invalid_size, invalid_size => true
  | _, _ => false
  end.

(** What a call can throw: the [channel_exception] of this library, made
    from a [channel_error], and the exceptions of the standard library that
    reach the caller ([std::length_error] and [std::bad_alloc] from
    [std::vector::resize], [std::system_error] from [std::thread::join]). *)
Inductive exception : Type :=
| channel_exception (_error : channel_error)
| length_error
| bad_alloc
| system_error.

Coercion channel_exception : channel_error >-> exception.

(** [channel_exception::_error_messages], a [std::map] from the error to its
    text, kept as the association list of its initialiser. *)
Definition _error_messages : list (channel_error * string) :=
  [ (illegal_write, "illegal write on closed channel"%string);
    (invalid_size, "buffered channel cannot have size of zero"%string) ].

Fixpoint find (error : channel_error) (messages : list (channel_error * string))
  : option string :=
  match messages with
  | [] => None
  | (e, m) :: rest => if channel_error_eqb e error then Some m else find error rest
  end.

(** [channel_exception::what] looks the error up in [_error_messages] with
    [find], copies the text into a local [std::string] and returns the
    [c_str()] of that local, a pointer that does not outlive the call: no
    text is modelled for what [what] hands back. *)

Module read_status.
Inductive t : Type :=
| success
| timeout
| closed.
End read_status.

Module write_status.
Inductive t : Type :=
| success
| timeout.
End write_status.

(** ** The monitor monad

    The two condition variables of either class, the notifications sent on
    them, and what a call can come to. *)

Inductive condition_variable : Type :=
| _writable
| _readable.

Inductive signal : Type :=
| notify_one (cv : condition_variable)
| notify_all (cv : condition_variable).

Inductive outcome (A : Type) : Type :=
| returned (a : A)              (* the call returns [a] *)
| thrown (e : exception)        (* an exception leaves the call *)
| waiting                       (* the thread is parked in a wait *)
| undefined.                    (* [operator[]] outside the vector *)

Arguments returned {A} a.
Arguments thrown {A} e.
Arguments waiting {A}.
Arguments undefined {A}.

Definition M (St A : Type) : Type := St -> outcome A * St * list signal.

Definition ret {St A : Type} (a : A) : M St A :=
  fun s => (returned a, s, []).

Definition bind {St A B : Type} (m : M St A) (f : A -> M St B) : M St B :=
  fun s =>
    match m s with
    | (returned a, s1, sent) =>
        match f a s1 with
        | (o, s2, sent') => (o, s2, sent ++ sent')
        end
    | (thrown e, s1, sent) => (thrown e, s1, sent)
    | (waiting, s1, sent) => (waiting, s1, sent)
    | (undefined, s1, sent) => (undefined, s1, sent)
    end.

Definition get {St : Type} : M St St :=
  fun s => (returned s, s, []).

Definition modify {St : Type} (f : St -> St) : M St unit :=
  fun s => (returned tt, f s, []).

Definition throw {St A : Type} (e : exception) : M St A :=
  fun s => (thrown e, s, []).

Definition park {St A : Type} : M St A :=
  fun s => (waiting, s, []).

Definition notify {St : Type} (sg : signal) : M St unit :=
  fun s => (returned tt, s, [sg]).

Declare Scope monitor_scope.
Delimit Scope monitor_scope with monitor.
Notation "x <- m ;; k" := (bind m (fun x => k))
  (at level 100, m at next level, right associativity) : monitor_scope.
Notation "m ;; k" := (bind m (fun _ => k))
  (at level 100, right associativity) : monitor_scope.

(** The three projections of a finished step. *)
Definition result {St A : Type} (r : outcome A * St * list signal) : outcome A :=
  fst (fst r).
Definition after {St A : Type} (r : outcome A * St * list signal) : St :=
  snd (fst r).
Definition sent {St A : Type} (r : outcome A * St * list signal) : list signal :=
  snd r.

(** The outcome of a call whose returned value goes through [f]. *)
Definition outcome_map {A B : Type} (f : A -> B) (o : outcome A) : outcome B :=
  match o with
  | returned a => returned (f a)
  | thrown e => thrown e
  | waiting => waiting
  | undefined => undefined
  end.

(** An object with a [std::mutex _mutex] member: whether a thread holds
    it, and taking or giving it back. *)
Class Lockable (St : Type) : Type := {
  held : St -> bool;
  set_held : bool -> St -> St
}.

Section Locking.
Context {St : Type} `{Lockable St}.

Local Open Scope monitor_scope.

(** [lock.unlock()]. *)
Definition unlock : M St unit := modify (set_held false).

(** [std::unique_lock<std::mutex> lock(_mutex); body]: the thread parks
    while another one holds the mutex; the lock's destructor gives the
    mutex back when the body returns or throws (it does nothing when the
    body has done so already). A body parked in a wait has given the mutex
    back itself. *)
Definition unique_lock {A : Type} (body : M St A) : M St A :=
  fun s =>
    if held s then park s
    else
      match body (set_held true s) with
      | (returned a, s1, sg) => (returned a, set_held false s1, sg)
      | (thrown e, s1, sg) => (thrown e, set_held false s1, sg)
      | r => r
      end.

(** [condition_variable.wait(lock, stop_waiting)]: the thread goes on at
    once when the predicate holds, and otherwise gives the mutex back and
    parks. *)
Definition cv_wait (cv : condition_variable) (stop_waiting : St -> bool)
  : M St unit :=
  s <- get ;;
  if stop_waiting s then ret tt
  else unlock ;; park.

(** [condition_variable.wait_for(lock, timeout, stop_waiting)] and
    [wait_until] return the value of the predicate at the end of the
    wait: [true] as soon as it holds, [false] when the time is up and it
    still does not hold. The step is taken at that moment, so the length
    of the wait does not enter the result. *)
Definition cv_wait_for (cv : condition_variable) (stop_waiting : St -> bool)
           (timeout : Z) : M St bool :=
  s <- get ;;
  ret (stop_waiting s).

Definition cv_wait_until (cv : condition_variable) (stop_waiting : St -> bool)
           (deadline : Z) : M St bool :=
  s <- get ;;
  ret (stop_waiting s).

End Locking.

(** ** Calls and runs

    A call of a public member function with its arguments, and what the
    caller gets back: the status and, for a read, what the reference
    [value] holds after the call. *)

Inductive call (T : Type) : Type :=
| call_read (value : T)
| call_read_for (value : T) (timeout : Z)
| call_read_until (value : T) (deadline : Z)
| call_write (value : T)
| call_write_for (value : T) (timeout : Z)
| call_write_until (value : T) (deadline : Z)
| call_close.

Arguments call_read {T} value.
Arguments call_read_for {T} value timeout.
Arguments call_read_until {T} value deadline.
Arguments call_write {T} value.
Arguments call_write_for {T} value timeout.
Arguments call_write_until {T} value deadline.
Arguments call_close {T}.

Inductive reply (T : Type) : Type :=
| read_reply (status : read_status.t) (value : T)
| write_reply (status : write_status.t)
| close_reply.

Arguments read_reply {T} status value.
Arguments write_reply {T} status.
Arguments close_reply {T}.

(** The member function a call belongs to, up to its timed variants. *)
Inductive operation : Type :=
| op_read
| op_write
| op_close.

Definition operation_of {T : Type} (k : call T) : operation :=
  match k with
  | call_read _ | call_read_for _ _ | call_read_until _ _ => op_read
  | call_write _ | call_write_for _ _ | call_write_until _ _ => op_write
  | call_close => op_close
  end.

Definition is_close {T : Type} (k : call T) : bool :=
  match k with
  | call_close => true
  | _ => false
  end.

(** The value a call hands to its caller (a read that returns [success])
    and the value a call puts into the channel (a write that returns
    [success]). *)
Definition delivered {T : Type} (o : outcome (reply T)) : list T :=
  match o with
  | returned (read_reply read_status.success v) => [v]
  | _ => []
  end.

Definition accepted {T : Type} (k : call T) (o : outcome (reply T)) : list T :=
  match k, o with
  | call_write v, returned (write_reply write_status.success)
  | call_write_for v _, returned (write_reply write_status.success)
  | call_write_until v _, returned (write_reply write_status.success) => [v]
  | _, _ => []
  end.

Section Runs.
Context {St T : Type}.
Variable perform : call T -> M St (reply T).

Definition step (k : call T) (s : St) : St := after (perform k s).

Definition run (calls : list (call T)) (s : St) : St :=
  fold_left (fun s k => step k s) calls s.

(** The values read, and the values written, in the order of the calls. *)
Fixpoint values_read (calls : list (call T)) (s : St) : list T :=
  match calls with
  | [] => []
  | k :: rest => delivered (result (perform k s)) ++ values_read rest (step k s)
  end.

Fixpoint values_written (calls : list (call T)) (s : St) : list T :=
  match calls with
  | [] => []
  | k :: rest => accepted k (result (perform k s)) ++ values_written rest (step k s)
  end.
End Runs.

(** What a [std::vector] can hold where the program runs: its
    [max_size()], and the number of elements the allocator can supply when
    it is asked. Both belong to the standard library and the machine. *)
Record vector_limits : Type := {
  max_size : Z;
  allocatable : Z
}.

(** A machine for the examples: [max_size()] as libstdc++ has it for
    four-byte elements, and room for a thousand of them. *)
Definition example_limits : vector_limits :=
  {| max_size := 2 ^ 61 - 1; allocatable := 1000 |}.

(** [std::size_t] arithmetic: unsigned, 64 bits wide. *)
Definition size_t_modulus : Z := 2 ^ 64.
Definition size_t_wrap (z : Z) : Z := z mod size_t_modulus.

(** ** The single-slot channel *)

Module channel.

Inductive channel_state : Type :=
| writable
| readable
| closing
| closed.

Definition channel_state_eqb (a b : channel_state) : bool :=
  match a, b with
  | writable, writable | readable, readable
  | closing, closing | closed, closed => true
  | _, _ => false
  end.

(** The moves the state machine is specified to make: the normal cycle
    writable -> readable -> writable, and the close paths writable -> closed
    and readable -> closing -> closed, each with the member function that
    makes it. *)
Inductive transition : channel_state -> operation -> channel_state -> Prop :=
| write_fills : transition writable op_write readable
| read_empties : transition readable op_read writable
| close_empty : transition writable op_close closed
| close_full : transition readable op_close closing
| read_drains : transition closing op_read closed.

Section WithType.
Variable T : Type.

(** The fields. [_mutex] is [true] while a thread holds the mutex. The
    condition variables [_writable] and [_readable] carry no data of
    their own: what is sent on them is in the step's notifications. *)
Record t : Type := {
  _value : T;
  _state : channel_state;
  _mutex : bool
}.

Definition set_value (v : T) (c : t) : t :=
  {| _value := v; _state := _state c; _mutex := _mutex c |}.
Definition set_state (s : channel_state) (c : t) : t :=
  {| _value := _value c; _state := s; _mutex := _mutex c |}.
Definition set_mutex (b : bool) (c : t) : t :=
  {| _value := _value c; _state := _state c; _mutex := b |}.

#[export] Instance lockable : Lockable t :=
  {| held := _mutex; set_held := set_mutex |}.

Local Open Scope monitor_scope.

(** The private [wait], [wait_for] and [wait_until]: the predicate is
    [_state != hold_state]. *)
Definition wait (cv : condition_variable) (hold_state : channel_state)
  : M t unit :=
  cv_wait cv (fun c => negb (channel_state_eqb (_state c) hold_state)).

Definition wait_for (cv : condition_variable) (hold_state : channel_state)
           (timeout : Z) : M t bool :=
  cv_wait_for cv (fun c => negb (channel_state_eqb (_state c) hold_state)) timeout.

Definition wait_until (cv : condition_variable) (hold_state : channel_state)
           (deadline : Z) : M t bool :=
  cv_wait_until cv (fun c => negb (channel_state_eqb (_state c) hold_state)) deadline.

(** [read_channel(Type &value, lock)]. The reference [value] is passed
    as what it holds before the call and returned as what it holds
    after. *)
Definition read_channel (value : T) : M t (read_status.t * T) :=
  c <- get ;;
  match _state c with
  | readable =>
      let value := _value c in
      modify (set_state writable) ;;
      unlock ;;
      notify (notify_one _writable) ;;
      ret (read_status.success, value)
  | closing =>
      let value := _value c in
      modify (set_state closed) ;;
      unlock ;;
      notify (notify_all _readable) ;;
      ret (read_status.success, value)
  | closed =>
      ret (read_status.closed, value)
  | writable =>
      throw (channel_exception illegal_write)
  end.

(** [write_channel<ValueType>(value, lock)]. Both branches of the
    [is_move_assignable] test store [value] in the slot. *)
Definition write_channel (value : T) : M t write_status.t :=
  c <- get ;;
  match _state c with
  | writable =>
      modify (set_value value) ;;
      modify (set_state readable) ;;
      unlock ;;
      notify (notify_one _readable) ;;
      ret write_status.success
  | _ =>
      throw (channel_exception illegal_write)
  end.

(** [channel()]: the state is [writable]; [_value] is default-initialised
    and holds [init], whatever that is for the type. *)
Definition channel (init : T) : t :=
  {| _value := init; _state := writable; _mutex := false |}.

Definition close : M t unit :=
  unique_lock (
    c <- get ;;
    (if channel_state_eqb (_state c) readable then
       modify (set_state closing)
     else if channel_state_eqb (_state c) writable then
       modify (set_state closed)
     else ret tt) ;;
    unlock ;;
    notify (notify_all _writable) ;;
    notify (notify_all _readable)).

Definition read (value : T) : M t (read_status.t * T) :=
  unique_lock (
    wait _readable writable ;;
    read_channel value).

Definition read_for (value : T) (timeout : Z) : M t (read_status.t * T) :=
  unique_lock (
    ready <- wait_for _readable writable timeout ;;
    if ready then read_channel value
    else ret (read_status.timeout, value)).

Definition read_until (value : T) (deadline : Z) : M t (read_status.t * T) :=
  unique_lock (
    ready <- wait_until _readable writable deadline ;;
    if ready then read_channel value
    else ret (read_status.timeout, value)).

(** [write(const Type &)] and [write(Type &&)] differ in how the value
    reaches the slot (copy or move), not in what the slot then holds;
    the same for the timed writes. The destructor calls [close]. *)
Definition write (value : T) : M t write_status.t :=
  unique_lock (
    wait _writable readable ;;
    write_channel value).

Definition write_for (value : T) (timeout : Z) : M t write_status.t :=
  unique_lock (
    ready <- wait_for _writable readable timeout ;;
    if ready then write_channel value
    else ret write_status.timeout).

Definition write_until (value : T) (deadline : Z) : M t write_status.t :=
  unique_lock (
    ready <- wait_until _writable readable deadline ;;
    if ready then write_channel value
    else ret write_status.timeout).

(** A call of the public interface, as a step of the object. *)
Definition perform (k : call T) : M t (reply T) :=
  match k with
  | call_read value =>
      r <- read value ;; ret (read_reply (fst r) (snd r))
  | call_read_for value timeout =>
      r <- read_for value timeout ;; ret (read_reply (fst r) (snd r))
  | call_read_until value deadline =>
      r <- read_until value deadline ;; ret (read_reply (fst r) (snd r))
  | call_write value =>
      r <- write value ;; ret (write_reply r)
  | call_write_for value timeout =>
      r <- write_for value timeout ;; ret (write_reply r)
  | call_write_until value deadline =>
      r <- write_until value deadline ;; ret (write_reply r)
  | call_close =>
      close ;; ret close_reply
  end.

End WithType.

Arguments _value {T} _.
Arguments _state {T} _.
Arguments _mutex {T} _.
Arguments set_mutex {T} b c.
Arguments set_state {T} s c.
Arguments set_value {T} v c.
Arguments channel {T} init.
Arguments close {T}.
Arguments read {T} value.
Arguments read_for {T} value timeout.
Arguments read_until {T} value deadline.
Arguments write {T} value.
Arguments write_for {T} value timeout.
Arguments write_until {T} value deadline.
Arguments read_channel {T} value.
Arguments write_channel {T} value.
Arguments wait {T} cv hold_state.
Arguments wait_for {T} cv hold_state timeout.
Arguments wait_until {T} cv hold_state deadline.
Arguments perform {T} k.

End channel.

(** ** The buffered channel *)

Module buffered_channel.

Section WithType.
Variable T : Type.

(** What [Type()] is: the value [std::vector::resize] fills the new
    elements with. *)
Variable value_initialized : T.

Record t : Type := {
  _values : list T;
  _mutex : bool;
  _read_position : Z;
  _write_position : Z;
  _count : Z;
  _open : bool
}.

Definition set_values (vs : list T) (c : t) : t :=
  {| _values := vs; _mutex := _mutex c;
     _read_position := _read_position c; _write_position := _write_position c;
     _count := _count c; _open := _open c |}.
Definition set_mutex (b : bool) (c : t) : t :=
  {| _values := _values c; _mutex := b;
     _read_position := _read_position c; _write_position := _write_position c;
     _count := _count c; _open := _open c |}.
Definition set_read_position (p : Z) (c : t) : t :=
  {| _values := _values c; _mutex := _mutex c;
     _read_position := p; _write_position := _write_position c;
     _count := _count c; _open := _open c |}.
Definition set_write_position (p : Z) (c : t) : t :=
  {| _values := _values c; _mutex := _mutex c;
     _read_position := _read_position c; _write_position := p;
     _count := _count c; _open := _open c |}.
Definition set_count (n : Z) (c : t) : t :=
  {| _values := _values c; _mutex := _mutex c;
     _read_position := _read_position c; _write_position := _write_position c;
     _count := n; _open := _open c |}.
Definition set_open (b : bool) (c : t) : t :=
  {| _values := _values c; _mutex := _mutex c;
     _read_position := _read_position c; _write_position := _write_position c;
     _count := _count c; _open := b |}.

#[export] Instance lockable : Lockable t :=
  {| held := _mutex; set_held := set_mutex |}.

(** [_values.size()]. *)
Definition size (c : t) : Z := Z.of_nat (length (_values c)).

Definition is_readable (c : t) : bool :=
  negb (_open c) || (0 <? _count c).

Definition is_writable (c : t) : bool :=
  negb (_open c) || (_count c <? size c).

Local Open Scope monitor_scope.

(** [_values[i]] as a value and as the target of an assignment;
    [operator[]] outside the vector is undefined. *)
Definition subscript (i : Z) : M t T :=
  c <- get ;;
  match _values c !! Z.to_nat i with
  | Some v => ret v
  | None => fun c => (undefined, c, [])
  end.

Definition assign_subscript (i : Z) (value : T) : M t unit :=
  c <- get ;;
  if i <? size c then modify (set_values (<[Z.to_nat i := value]> (_values c)))
  else fun c => (undefined, c, []).

Definition wait (cv : condition_variable) (stop_waiting : t -> bool)
  : M t unit :=
  cv_wait cv stop_waiting.

Definition wait_for (cv : condition_variable) (stop_waiting : t -> bool)
           (timeout : Z) : M t bool :=
  cv_wait_for cv stop_waiting timeout.

Definition wait_until (cv : condition_variable) (stop_waiting : t -> bool)
           (deadline : Z) : M t bool :=
  cv_wait_until cv stop_waiting deadline.

(** [read_channel(Type &value, lock)]. The subscript comes before the
    [%], so the vector is not empty where the remainder is taken. *)
Definition read_channel (value : T) : M t (read_status.t * T) :=
  c <- get ;;
  if negb (_open c) && (_count c =? 0) then
    unlock ;;
    notify (notify_all _readable) ;;
    ret (read_status.closed, value)
  else
    value <- subscript (_read_position c) ;;
    modify (fun c => set_read_position
                       (size_t_wrap (_read_position c + 1) mod size c) c) ;;
    modify (fun c => set_count (size_t_wrap (_count c - 1)) c) ;;
    unlock ;;
    notify (notify_one _writable) ;;
    ret (read_status.success, value).

(** [write_channel<ValueType>(value, lock)]. Both branches of the
    [is_move_assignable] test store [value] at the write cursor. *)
Definition write_channel (value : T) : M t write_status.t :=
  c <- get ;;
  if _open c then
    assign_subscript (_write_position c) value ;;
    modify (fun c => set_count (size_t_wrap (_count c + 1)) c) ;;
    modify (fun c => set_write_position
                       (size_t_wrap (_write_position c + 1) mod size c) c) ;;
    unlock ;;
    notify (notify_one _readable) ;;
    ret write_status.success
  else
    throw (channel_exception illegal_write).

(** [buffered_channel(std::size_t size)]: the member initialisers, then
    the test of [size], then [_values.resize(size)], which throws
    [std::length_error] for more elements than [max_size()] and
    [std::bad_alloc] when the allocator cannot supply them. An exception
    leaves no object behind. *)
Definition buffered_channel (limits : vector_limits) (size : Z) : outcome t :=
  let c := {| _values := []; _mutex := false;
              _read_position := 0; _write_position := 0;
              _count := 0; _open := true |} in
  if size =? 0 then thrown (channel_exception invalid_size)
  else if max_size limits <? size then thrown length_error
  else if allocatable limits <? size then thrown bad_alloc
  else returned (set_values (repeat value_initialized (Z.to_nat size)) c).

Definition close : M t unit :=
  unique_lock (
    modify (set_open false) ;;
    unlock ;;
    notify (notify_all _writable) ;;
    notify (notify_all _readable)).

Definition read (value : T) : M t (read_status.t * T) :=
  unique_lock (
    wait _readable is_readable ;;
    read_channel value).

Definition read_for (value : T) (timeout : Z) : M t (read_status.t * T) :=
  unique_lock (
    ready <- wait_for _readable is_readable timeout ;;
    if ready then read_channel value
    else ret (read_status.timeout, value)).

Definition read_until (value : T) (deadline : Z) : M t (read_status.t * T) :=
  unique_lock (
    ready <- wait_until _readable is_readable deadline ;;
    if ready then read_channel value
    else ret (read_status.timeout, value)).

Definition write (value : T) : M t write_status.t :=
  unique_lock (
    wait _writable is_writable ;;
    write_channel value).

Definition write_for (value : T) (timeout : Z) : M t write_status.t :=
  unique_lock (
    ready <- wait_for _writable is_writable timeout ;;
    if ready then write_channel value
    else ret write_status.timeout).

Definition write_until (value : T) (deadline : Z) : M t write_status.t :=
  unique_lock (
    ready <- wait_until _writable is_writable deadline ;;
    if ready then write_channel value
    else ret write_status.timeout).

Definition perform (k : call T) : M t (reply T) :=
  match k with
  | call_read value =>
      r <- read value ;; ret (read_reply (fst r) (snd r))
  | call_read_for value timeout =>
      r <- read_for value timeout ;; ret (read_reply (fst r) (snd r))
  | call_read_until value deadline =>
      r <- read_until value deadline ;; ret (read_reply (fst r) (snd r))
  | call_write value =>
      r <- write value ;; ret (write_reply r)
  | call_write_for value timeout =>
      r <- write_for value timeout ;; ret (write_reply r)
  | call_write_until value deadline =>
      r <- write_until value deadline ;; ret (write_reply r)
  | call_close =>
      close ;; ret close_reply
  end.

(** *** The queue the fields stand for

    [window vs p n]: the [n] elements of the ring [vs] from position [p]
    on, wrapping at the end; [pending c]: the values written and not yet
    read, oldest first. *)
Fixpoint window (vs : list T) (p : Z) (n : nat) : list T :=
  match n with
  | O => []
  | S n' =>
      match vs !! Z.to_nat p with
      | Some v => v :: window vs ((p + 1) mod Z.of_nat (length vs)) n'
      | None => []
      end
  end.

Definition pending (c : t) : list T :=
  window (_values c) (_read_position c) (Z.to_nat (_count c)).

(** What holds of the fields between any two calls of a channel of
    capacity [N]. *)
Definition consistent (N : Z) (c : t) : Prop :=
  size c = N /\
  1 <= N < size_t_modulus /\
  0 <= _read_position c < N /\
  0 <= _count c <= N /\
  _write_position c = (_read_position c + _count c) mod N /\
  _mutex c = false.

End WithType.

Arguments _values {T} _.
Arguments _mutex {T} _.
Arguments _read_position {T} _.
Arguments _write_position {T} _.
Arguments _count {T} _.
Arguments _open {T} _.
Arguments set_values {T} vs c.
Arguments set_mutex {T} b c.
Arguments set_read_position {T} p c.
Arguments set_write_position {T} p c.
Arguments set_count {T} n c.
Arguments set_open {T} b c.
Arguments size {T} c.
Arguments is_readable {T} c.
Arguments is_writable {T} c.
Arguments subscript {T} i.
Arguments assign_subscript {T} i value.
Arguments read_channel {T} value.
Arguments write_channel {T} value.
Arguments buffered_channel {T} value_initialized limits size.
Arguments close {T}.
Arguments read {T} value.
Arguments read_for {T} value timeout.
Arguments read_until {T} value deadline.
Arguments write {T} value.
Arguments write_for {T} value timeout.
Arguments write_until {T} value deadline.
Arguments perform {T} k.
Arguments window {T} vs p n.
Arguments pending {T} c.
Arguments consistent {T} N c.

End buffered_channel.

(** ** What is observed of a step and of a channel *)

Definition condition_variable_eqb (a b : condition_variable) : bool :=
  match a, b with
  | _writable, _writable | _readable, _readable => true
  | _, _ => false
  end.

(** Whether a notification, to one waiter or to all, went out on [cv]. *)
Definition notified (cv : condition_variable) (sg : list signal) : bool :=
  existsb (fun s => match s with
                    | notify_one c | notify_all c => condition_variable_eqb c cv
                    end) sg.

(** The value a single-slot channel holds for a reader: the slot in the
    states [readable] and [closing], nothing in the other two. *)
Definition slot_pending {T : Type} (c : channel.t T) : list T :=
  match channel._state c with
  | channel.readable | channel.closing => [channel._value c]
  | channel.writable | channel.closed => []
  end.

(** The predicates the readers and the writers of a single-slot channel
    wait for: [_state != writable] and [_state != readable]. *)
Definition slot_readers_go {T : Type} (c : channel.t T) : bool :=
  negb (channel.channel_state_eqb (channel._state c) channel.writable).

Definition slot_writers_go {T : Type} (c : channel.t T) : bool :=
  negb (channel.channel_state_eqb (channel._state c) channel.readable).

(** ** The thread pool of examples/threadpool.cpp *)

Module threadpool.

Section WithTask.
(** [std::function<void()>], and the empty one a default-constructed
    variable of that type holds. *)
Variable task : Type.
Variable empty_task : task.

(** A [std::thread] of [_workers]: in the worker loop, with what its
    variable [work] holds; with the loop returned and the thread not yet
    joined; joined. *)
Inductive thread : Type :=
| running (work : task)
| finished
| joined.

(** The fields. *)
Record t : Type := {
  _queue : buffered_channel.t task;
  _workers : list thread;
  _active : bool
}.

Definition set_queue (q : buffered_channel.t task) (p : t) : t :=
  {| _queue := q; _workers := _workers p; _active := _active p |}.
Definition set_workers (ws : list thread) (p : t) : t :=
  {| _queue := _queue p; _workers := ws; _active := _active p |}.
Definition set_active (b : bool) (p : t) : t :=
  {| _queue := _queue p; _workers := _workers p; _active := b |}.
Definition set_worker (i : nat) (th : thread) (p : t) : t :=
  set_workers (<[i := th]> (_workers p)) p.

Local Open Scope monitor_scope.

(** A member function of [_queue] called on the pool's queue. *)
Definition on_queue {A : Type} (m : M (buffered_channel.t task) A) : M t A :=
  fun p =>
    match m (_queue p) with
    | (o, q, sg) => (o, set_queue q p, sg)
    end.

(** [threadpool(worker_count, queue_size)]: [_queue(queue_size)] is the
    first member to be initialised, so an exception of the channel's
    constructor leaves before a thread is started. The body reserves
    [worker_count] places in [_workers] and starts a thread in every place
    of the capacity the vector then has, [reserved worker_count]: at least
    [worker_count], and exactly that where [reserve] allocates what it is
    asked for. Each thread starts in the worker loop, its [work] empty. A
    [reserve] or a thread that fails for lack of resources is not
    modelled. *)
Definition threadpool (limits : vector_limits) (reserved : Z -> Z)
           (worker_count queue_size : Z) : outcome t :=
  match buffered_channel.buffered_channel empty_task limits queue_size with
  | returned q =>
      returned {| _queue := q;
                  _workers := repeat (running empty_task)
                                (Z.to_nat (reserved worker_count));
                  _active := true |}
  | thrown e => thrown e
  | waiting => waiting
  | undefined => undefined
  end.

(** The loop of a worker thread:
    [while (_queue.read(work) == read_status::success) work();].
    [fuel] bounds the number of reads; the result is how the loop ends (it
    returns, or the thread is parked in a read), the queue then, and the
    tasks it has run, in the order it ran them. *)
Fixpoint worker (fuel : nat) (work : task) (q : buffered_channel.t task)
  : option (outcome unit * buffered_channel.t task * list task) :=
  match fuel with
  | O => None
  | S fuel' =>
      match buffered_channel.read work q with
      | (returned (read_status.success, work'), q', _) =>
          match worker fuel' work' q' with
          | Some (o, q'', ran) => Some (o, q'', work' :: ran)
          | None => None
          end
      | (returned (_, _), q', _) => Some (returned tt, q', [])
      | (thrown e, q', _) => Some (thrown e, q', [])
      | (waiting, q', _) => Some (waiting, q', [])
      | (undefined, q', _) => Some (undefined, q', [])
      end
  end.

(** One turn of the loop of the worker in place [i], as a step of the
    pool: the read; on [success] the task read is run ([Some] of it is the
    result) and the loop goes on, on any other status the loop returns. A
    thread whose loop has returned takes no turn. *)
Definition worker_turn (i : nat) : M t (option task) :=
  p <- get ;;
  match _workers p !! i with
  | Some (running work) =>
      r <- on_queue (buffered_channel.read work) ;;
      match fst r with
      | read_status.success =>
          modify (set_worker i (running (snd r))) ;;
          ret (Some (snd r))
      | _ =>
          modify (set_worker i finished) ;;
          ret None
      end
  | _ => ret None
  end.

(** [worker.join()] on the thread in place [i]: the caller is parked until
    the thread's loop has returned; a thread that was joined before is not
    joinable, and [join] throws [std::system_error]. *)
Definition join (i : nat) : M t unit :=
  p <- get ;;
  match _workers p !! i with
  | Some (running _) => park
  | Some finished => modify (set_worker i joined)
  | Some joined => throw system_error
  | None => ret tt
  end.

(** [for (std::thread &worker : _workers) worker.join();] from place [i]
    on, [n] places. *)
Fixpoint join_all (i n : nat) : M t unit :=
  match n with
  | O => ret tt
  | S n' => join i ;; join_all (S i) n'
  end.

(** [shutdown()]. *)
Definition shutdown : M t unit :=
  modify (set_active false) ;;
  on_queue buffered_channel.close ;;
  p <- get ;;
  join_all 0 (length (_workers p)).

(** The body of [~threadpool()]. *)
Definition destroy : M t unit :=
  p <- get ;;
  if _active p then shutdown else ret tt.

(** [submit(f, args...)]: the packaged task goes into the queue with
    [_queue.write]; the future handed back is not part of the model. *)
Definition submit (work : task) : M t unit :=
  on_queue (buffered_channel.write work) ;;
  ret tt.

(** *** Runs of the pool

    The steps the threads around a pool take: a client submits a task; the
    worker in place [i] takes a turn of its loop; a client in [shutdown]
    makes its next statement, [_active = false], [_queue.close()] or the
    join of place [i]; or a client makes a whole [shutdown] with no other
    thread stepping in between, as far as that call gets. *)
Inductive action : Type :=
| act_submit (work : task)
| act_worker (i : nat)
| act_deactivate
| act_close
| act_join (i : nat)
| act_shutdown.

Definition act (a : action) : M t unit :=
  match a with
  | act_submit work => submit work
  | act_worker i => worker_turn i ;; ret tt
  | act_deactivate => modify (set_active false)
  | act_close => on_queue buffered_channel.close
  | act_join i => join i
  | act_shutdown => shutdown
  end.

Definition pool_step (a : action) (p : t) : t := after (act a p).

Definition pool_run (acts : list action) (p : t) : t :=
  fold_left (fun p a => pool_step a p) acts p.

(** The task a step hands to [work()], and the task a step puts into the
    queue. *)
Definition taken (a : action) (p : t) : list task :=
  match a with
  | act_worker i =>
      match result (worker_turn i p) with
      | returned (Some work) => [work]
      | _ => []
      end
  | _ => []
  end.

Definition queued (a : action) (p : t) : list task :=
  match a with
  | act_submit work =>
      match result (submit work p) with
      | returned _ => [work]
      | _ => []
      end
  | _ => []
  end.

Fixpoint tasks_taken (acts : list action) (p : t) : list task :=
  match acts with
  | [] => []
  | a :: rest => taken a p ++ tasks_taken rest (pool_step a p)
  end.

Fixpoint tasks_queued (acts : list action) (p : t) : list task :=
  match acts with
  | [] => []
  | a :: rest => queued a p ++ tasks_queued rest (pool_step a p)
  end.

(** What holds of a pool with a queue of [N] places between any two
    steps: the queue is consistent, and once the loop of a worker has
    returned the queue is closed and empty. *)
Definition pool_ok (N : Z) (p : t) : Prop :=
  buffered_channel.consistent N (_queue p) /\
  (forall i th,
      _workers p !! i = Some th -> th = finished \/ th = joined ->
      buffered_channel._open (_queue p) = false /\
      buffered_channel._count (_queue p) = 0).

(** [settled p p']: [p'] is [p] but for workers whose loop had returned
    and that have been joined since. *)
Definition settled (p p' : t) : Prop :=
  _queue p' = _queue p /\
  _active p' = _active p /\
  length (_workers p') = length (_workers p) /\
  forall k,
    _workers p' !! k = _workers p !! k \/
    (_workers p !! k = Some finished /\ _workers p' !! k = Some joined).

End WithTask.

Arguments running {task} work.
Arguments finished {task}.
Arguments joined {task}.
Arguments _queue {task} _.
Arguments _workers {task} _.
Arguments _active {task} _.
Arguments set_queue {task} q p.
Arguments set_workers {task} ws p.
Arguments set_active {task} b p.
Arguments set_worker {task} i th p.
Arguments on_queue {task A} m.
Arguments threadpool {task} empty_task limits reserved worker_count queue_size.
Arguments worker {task} fuel work q.
Arguments worker_turn {task} i.
Arguments join {task} i.
Arguments join_all {task} i n.
Arguments shutdown {task}.
Arguments destroy {task}.
Arguments submit {task} work.
Arguments act_submit {task} work.
Arguments act_worker {task} i.
Arguments act_shutdown {task}.
Arguments act_deactivate {task}.
Arguments act_close {task}.
Arguments act_join {task} i.
Arguments act {task} a.
Arguments pool_step {task} a p.
Arguments pool_run {task} acts p.
Arguments taken {task} a p.
Arguments queued {task} a p.
Arguments tasks_taken {task} acts p.
Arguments tasks_queued {task} acts p.
Arguments pool_ok {task} N p.
Arguments settled {task} p p'.

End threadpool.

(** * Properties *)

(** ** The error vocabulary *)

Lemma illegal_write_message :
  find illegal_write _error_messages
  = Some "illegal write on closed channel"%string.
Proof. reflexivity. Qed.

Lemma channel_error_cases (e : channel_error) :
  e = illegal_write \/ e = invalid_size.
Proof. destruct e; [left | right]; reflexivity. Qed.

(** ** The single-slot channel *)

Section SingleSlot.
Context {T : Type}.
Implicit Types (c : channel.t T) (k : call T) (v out : T).

Import channel.

(** Case analysis on the fields of a channel and evaluation of the step. *)
Ltac slot_cases c :=
  destruct c as [? [] []]; simpl in *; try discriminate; try reflexivity.

Lemma slot_timed_read_for out timeout c :
  read_for out timeout c =
  if _mutex c then (waiting, c, [])
  else if channel_state_eqb (_state c) writable
       then (returned (read_status.timeout, out), c, [])
       else read out c.
Proof. slot_cases c. Qed.

Lemma slot_timed_read_until out deadline c :
  read_until out deadline c = read_for out deadline c.
Proof. reflexivity. Qed.

Lemma slot_timed_write_for v timeout c :
  write_for v timeout c =
  if _mutex c then (waiting, c, [])
  else if channel_state_eqb (_state c) readable
       then (returned write_status.timeout, c, [])
       else write v c.
Proof. slot_cases c. Qed.

Lemma slot_timed_write_until v deadline c :
  write_until v deadline c = write_for v deadline c.
Proof. reflexivity. Qed.

(** The mutex is free again after every call. *)
Lemma slot_step_idle k c :
  _mutex c = false -> _mutex (step perform k c) = false.
Proof. intros Hm. destruct k; slot_cases c. Qed.

Lemma slot_run_idle calls c :
  _mutex c = false -> _mutex (run perform calls c) = false.
Proof.
  revert c. induction calls as [|k calls IH]; intros c Hm; simpl; [exact Hm|].
  apply IH, slot_step_idle, Hm.
Qed.

(** Every call moves the state along one of the five transitions, or
    leaves it where it is. *)
Lemma slot_step_transition k c :
  _mutex c = false ->
  _state (step perform k c) = _state c \/
  transition (_state c) (operation_of k) (_state (step perform k c)).
Proof.
  intros Hm. destruct k; destruct c as [? [] []]; simpl in *;
    try discriminate; first [left; reflexivity | right; constructor].
Qed.

(** A closed channel is a fixed point of every call. *)
Lemma slot_closed_step k c :
  _state c = closed -> _mutex c = false -> step perform k c = c.
Proof. intros Hs Hm. destruct k; slot_cases c. Qed.

Lemma slot_closed_run calls c :
  _state c = closed -> _mutex c = false -> run perform calls c = c.
Proof.
  intros Hs Hm. induction calls as [|k calls IH]; simpl; [reflexivity|].
  rewrite slot_closed_step by assumption. exact IH.
Qed.

Lemma slot_read_closed out c :
  _state c = closed -> _mutex c = false ->
  read out c = (returned (read_status.closed, out), c, []).
Proof. intros Hs Hm. slot_cases c. Qed.

(** A write returns [success] only from the state [writable] with the
    mutex free. *)
Lemma slot_write_success v c :
  result (write v c) = returned write_status.success ->
  _state c = writable /\ _mutex c = false.
Proof. destruct c as [? [] []]; simpl; intros H; try discriminate; auto. Qed.

End SingleSlot.

Section SingleSlotErrors.
Context {T : Type}.
Implicit Types (c : channel.t T) (v out : T).

Import channel.

(** A write to a closing or closed channel throws and touches nothing. *)
Lemma slot_write_closed v c :
  _mutex c = false -> _state c = closing \/ _state c = closed ->
  write v c = (thrown illegal_write, c, []).
Proof.
  intros Hm [Hs|Hs]; destruct c as [v0 s m]; simpl in Hm, Hs; subst s m;
    reflexivity.
Qed.

(** A read that returns [closed] found the channel closed. *)
Lemma slot_read_closed_inv out c x :
  result (read out c) = returned (read_status.closed, x) ->
  _state c = closed /\ _mutex c = false /\ x = out.
Proof.
  destruct c as [v0 [] []]; simpl; intros H; try discriminate.
  injection H as <-. auto.
Qed.

Lemma slot_read_timeout_inv out d c x :
  result (read_for out d c) = returned (read_status.timeout, x) ->
  read_for out d c = (returned (read_status.timeout, out), c, []).
Proof. destruct c as [v0 [] []]; simpl; intros H; try discriminate; reflexivity. Qed.

Lemma slot_write_timeout_inv v d c :
  result (write_for v d c) = returned write_status.timeout ->
  write_for v d c = (returned write_status.timeout, c, []).
Proof. destruct c as [v0 [] []]; simpl; intros H; try discriminate; reflexivity. Qed.

End SingleSlotErrors.

(** ** The monitor monad *)

Lemma bind_ret_map {St A B : Type} (m : M St A) (f : A -> B) (s : St) :
  bind m (fun a => ret (f a)) s =
  (outcome_map f (result (m s)), after (m s), sent (m s)).
Proof.
  unfold bind, ret, result, after, sent.
  destruct (m s) as [[[a|e| |] s1] sg]; simpl; rewrite ?app_nil_r; reflexivity.
Qed.

(** ** [std::size_t] arithmetic *)

Lemma size_t_wrap_small (z : Z) : 0 <= z < size_t_modulus -> size_t_wrap z = z.
Proof. intros H. unfold size_t_wrap. apply Z.mod_small, H. Qed.

(** Stepping a cursor: [(p + k) mod N] for [0 < k < N] is not [p]. *)
Lemma cursor_ahead_ne (p k N : Z) :
  0 <= p < N -> 0 < k < N -> (p + k) mod N <> p.
Proof.
  intros Hp Hk Heq.
  destruct (Z_lt_ge_dec (p + k) N) as [Hlt|Hge].
  - rewrite Z.mod_small in Heq by lia. lia.
  - replace (p + k) with ((p + k - N) + 1 * N) in Heq by lia.
    rewrite Z_mod_plus_full, Z.mod_small in Heq by lia. lia.
Qed.

Lemma cursor_step_add (p k N : Z) :
  ((p + 1) mod N + k) mod N = (p + (1 + k)) mod N.
Proof. rewrite Zplus_mod_idemp_l. f_equal. lia. Qed.

(** ** The buffered channel *)

Section Buffered.
Context {T : Type}.
Implicit Types (c : buffered_channel.t T) (k : call T) (v out : T).

Import buffered_channel.

(** Settle the comparisons of a step from the hypotheses. *)
Ltac settle :=
  repeat first
    [ rewrite (proj2 (Z.ltb_lt _ _)) by lia
    | rewrite (proj2 (Z.ltb_ge _ _)) by lia
    | rewrite (proj2 (Z.eqb_eq _ _)) by lia
    | rewrite (proj2 (Z.eqb_neq _ _)) by lia
    | progress simpl ].

Ltac open_step :=
  unfold read, read_for, read_until, write, write_for, write_until, close,
    unique_lock, wait, wait_for, wait_until, cv_wait, cv_wait_for,
    cv_wait_until, read_channel, write_channel, subscript, assign_subscript,
    unlock, bind, get, modify, notify, ret, throw, park,
    is_readable, is_writable, size;
  simpl.

Lemma buf_write_room v c N :
  consistent N c -> _open c = true -> _count c < N ->
  write v c =
  (returned write_status.success,
   {| _values := <[Z.to_nat (_write_position c) := v]> (_values c);
      _mutex := false;
      _read_position := _read_position c;
      _write_position := (_write_position c + 1) mod N;
      _count := _count c + 1;
      _open := true |},
   [notify_one _readable]).
Proof.
  intros (Hsz & HN & Hrp & Hn & Hwp & Hm) Ho Hlt.
  destruct c as [vs m rp wp n o]; unfold size in *; simpl in *; subst m o.
  assert (Hwpr : 0 <= wp < N) by (subst wp; apply Z.mod_pos_bound; lia).
  open_step. settle. rewrite length_insert, Hsz.
  rewrite !size_t_wrap_small by lia. reflexivity.
Qed.

Lemma buf_write_full v c N :
  consistent N c -> _open c = true -> _count c = N ->
  write v c = (waiting, c, []).
Proof.
  intros (Hsz & HN & Hrp & Hn & Hwp & Hm) Ho Hfull.
  destruct c as [vs m rp wp n o]; unfold size in *; simpl in *; subst m o.
  open_step. settle. reflexivity.
Qed.

Lemma buf_write_closed v c :
  _mutex c = false -> _open c = false ->
  write v c = (thrown illegal_write, c, []).
Proof.
  intros Hm Ho. destruct c as [vs m rp wp n o]; simpl in *; subst m o.
  reflexivity.
Qed.

Lemma buf_read_some out c N :
  consistent N c -> 0 < _count c ->
  exists x,
    _values c !! Z.to_nat (_read_position c) = Some x /\
    read out c =
    (returned (read_status.success, x),
     {| _values := _values c;
        _mutex := false;
        _read_position := (_read_position c + 1) mod N;
        _write_position := _write_position c;
        _count := _count c - 1;
        _open := _open c |},
     [notify_one _writable]).
Proof.
  intros (Hsz & HN & Hrp & Hn & Hwp & Hm) Hpos.
  destruct c as [vs m rp wp n o]; unfold size in *; simpl in *; subst m.
  destruct (lookup_lt_is_Some_2 vs (Z.to_nat rp)) as [x Hx]; [lia|].
  exists x. split; [exact Hx|].
  destruct o; open_step; settle; rewrite Hx; simpl; rewrite Hsz;
    rewrite !size_t_wrap_small by lia; reflexivity.
Qed.

Lemma buf_read_open_empty out c :
  _mutex c = false -> _open c = true -> _count c = 0 ->
  read out c = (waiting, c, []).
Proof.
  intros Hm Ho Hn. destruct c as [vs m rp wp n o]; simpl in *; subst m o n.
  reflexivity.
Qed.

Lemma buf_read_closed_empty out c :
  _mutex c = false -> _open c = false -> _count c = 0 ->
  read out c = (returned (read_status.closed, out), c, [notify_all _readable]).
Proof.
  intros Hm Ho Hn. destruct c as [vs m rp wp n o]; simpl in *; subst m o n.
  reflexivity.
Qed.

Lemma buf_close c :
  _mutex c = false ->
  close c = (returned tt, set_open false c, [notify_all _writable; notify_all _readable]).
Proof.
  intros Hm. destruct c as [vs m rp wp n o]; simpl in *; subst m.
  reflexivity.
Qed.

(** The timed calls: the untimed call where its predicate holds, and
    [timeout] with nothing touched where it does not. *)
Lemma buf_read_for out timeout c :
  _mutex c = false ->
  read_for out timeout c =
  if is_readable c then read out c
  else (returned (read_status.timeout, out), c, []).
Proof.
  intros Hm. destruct c as [vs m rp wp n o]; simpl in *; subst m.
  open_step. destruct (negb o || (0 <? n)); reflexivity.
Qed.

Lemma buf_read_until out deadline c :
  read_until out deadline c = read_for out deadline c.
Proof. reflexivity. Qed.

Lemma buf_write_for v timeout c :
  _mutex c = false ->
  write_for v timeout c =
  if is_writable c then write v c
  else (returned write_status.timeout, c, []).
Proof.
  intros Hm. destruct c as [vs m rp wp n o]; simpl in *; subst m.
  open_step. destruct (negb o || (n <? Z.of_nat (length vs))); reflexivity.
Qed.

Lemma buf_write_until v deadline c :
  write_until v deadline c = write_for v deadline c.
Proof. reflexivity. Qed.

(** The untimed calls never return [timeout], so a timed call that does
    has given up with everything as it was. *)
Lemma buf_read_not_timeout out c x :
  result (read out c) <> returned (read_status.timeout, x).
Proof.
  destruct c as [vs m rp wp n o]. open_step. unfold result.
  destruct m; simpl; [discriminate|].
  destruct (negb o || (0 <? n)); simpl; [|discriminate].
  destruct (negb o && (n =? 0)); simpl; [discriminate|].
  destruct (vs !! Z.to_nat rp); simpl; discriminate.
Qed.

Lemma buf_write_not_timeout v c :
  result (write v c) <> returned write_status.timeout.
Proof.
  destruct c as [vs m rp wp n o]. open_step. unfold result.
  destruct m; simpl; [discriminate|].
  destruct (negb o || (n <? Z.of_nat (length vs))); simpl; [|discriminate].
  destruct o; simpl; [|discriminate].
  destruct (wp <? Z.of_nat (length vs)); simpl; discriminate.
Qed.

Lemma buf_read_timeout_inv out d c x :
  _mutex c = false ->
  result (read_for out d c) = returned (read_status.timeout, x) ->
  read_for out d c = (returned (read_status.timeout, out), c, []).
Proof.
  intros Hm. rewrite (buf_read_for out d c Hm).
  destruct (is_readable c); [|reflexivity].
  intros H. destruct (buf_read_not_timeout out c x H).
Qed.

Lemma buf_write_timeout_inv v d c :
  _mutex c = false ->
  result (write_for v d c) = returned write_status.timeout ->
  write_for v d c = (returned write_status.timeout, c, []).
Proof.
  intros Hm. rewrite (buf_write_for v d c Hm).
  destruct (is_writable c); [|reflexivity].
  intros H. destruct (buf_write_not_timeout v c H).
Qed.

(** A read that returns [closed] found the channel closed and empty. *)
Lemma buf_read_closed_inv out c x :
  result (read out c) = returned (read_status.closed, x) ->
  _mutex c = false /\ _open c = false /\ _count c = 0 /\ x = out.
Proof.
  destruct c as [vs m rp wp n o]. open_step. unfold result.
  destruct m; simpl; [discriminate|].
  destruct (negb o || (0 <? n)); simpl; [|discriminate].
  destruct o; simpl.
  - destruct (vs !! Z.to_nat rp); simpl; discriminate.
  - destruct (Z.eqb_spec n 0) as [->|Hn]; simpl.
    + intros [= <-]. auto.
    + destruct (vs !! Z.to_nat rp); simpl; discriminate.
Qed.

(** *** The window of pending values *)

Lemma window_S (vs : list T) (p : Z) (n : nat) :
  window vs p (S n) =
  match vs !! Z.to_nat p with
  | Some x => x :: window vs ((p + 1) mod Z.of_nat (length vs)) n
  | None => []
  end.
Proof. reflexivity. Qed.

(** Storing at the cursor [n] places ahead of [p] appends to the window
    of length [n] from [p]. *)
Lemma window_snoc (vs : list T) (v : T) (n : nat) :
  forall p : Z,
    0 <= p < Z.of_nat (length vs) ->
    Z.of_nat n < Z.of_nat (length vs) ->
    window (<[Z.to_nat ((p + Z.of_nat n) mod Z.of_nat (length vs)) := v]> vs) p (S n)
    = window vs p n ++ [v].
Proof.
  induction n as [|n IH]; intros p Hp Hn.
  - rewrite window_S. simpl Z.of_nat. rewrite Z.add_0_r, Z.mod_small by lia.
    rewrite list_lookup_insert_eq by lia. reflexivity.
  - rewrite window_S, (window_S vs).
    assert (Hne : (p + Z.of_nat (S n)) mod Z.of_nat (length vs) <> p)
      by (apply cursor_ahead_ne; lia).
    assert (Hq : 0 <= (p + Z.of_nat (S n)) mod Z.of_nat (length vs))
      by (apply Z.mod_pos_bound; lia).
    rewrite list_lookup_insert_ne by lia.
    destruct (lookup_lt_is_Some_2 vs (Z.to_nat p)) as [x Hx]; [lia|].
    rewrite Hx, length_insert. simpl app. f_equal.
    replace ((p + Z.of_nat (S n)) mod Z.of_nat (length vs))
      with (((p + 1) mod Z.of_nat (length vs) + Z.of_nat n) mod Z.of_nat (length vs)).
    + apply IH; [apply Z.mod_pos_bound; lia | lia].
    + rewrite cursor_step_add. f_equal. lia.
Qed.

(** *** What a read and a write do to a consistent channel *)

Lemma buf_read_spec out c N :
  consistent N c ->
  (_open c = true /\ _count c = 0 /\ is_readable c = false /\
   read out c = (waiting, c, []))
  \/
  (_open c = false /\ _count c = 0 /\ is_readable c = true /\
   read out c = (returned (read_status.closed, out), c, [notify_all _readable]))
  \/
  (exists x c',
      0 < _count c /\ is_readable c = true /\
      read out c = (returned (read_status.success, x), c', [notify_one _writable]) /\
      consistent N c' /\ pending c = x :: pending c' /\
      _open c' = _open c /\ _count c' = _count c - 1).
Proof.
  intros Hc. pose proof Hc as (Hsz & HN & Hrp & Hn & Hwp & Hm).
  destruct (Z.eq_dec (_count c) 0) as [Hz|Hnz].
  - destruct (_open c) eqn:Ho.
    + left. repeat split; auto.
      * unfold is_readable. rewrite Ho, Hz. reflexivity.
      * apply buf_read_open_empty; assumption.
    + right; left. repeat split; auto.
      * unfold is_readable. rewrite Ho. reflexivity.
      * apply buf_read_closed_empty; assumption.
  - right; right.
    destruct (buf_read_some out c N Hc) as (x & Hx & Hread); [lia|].
    eexists x, _. split; [lia|]. split.
    { unfold is_readable. rewrite (proj2 (Z.ltb_lt 0 (_count c))) by lia.
      apply orb_true_r. }
    split; [exact Hread|].
    split; [|split; [|split; reflexivity]].
    + unfold consistent, size in *; simpl.
      assert (0 <= (_read_position c + 1) mod N < N) by (apply Z.mod_pos_bound; lia).
      repeat split; try lia.
      rewrite Hwp, Zplus_mod_idemp_l. f_equal. lia.
    + unfold pending; simpl.
      replace (Z.to_nat (_count c)) with (S (Z.to_nat (_count c - 1))) by lia.
      rewrite window_S, Hx. unfold size in Hsz. rewrite Hsz. reflexivity.
Qed.

Lemma buf_write_spec v c N :
  consistent N c ->
  (_open c = false /\ is_writable c = true /\
   write v c = (thrown illegal_write, c, []))
  \/
  (_open c = true /\ _count c = N /\ is_writable c = false /\
   write v c = (waiting, c, []))
  \/
  (exists c',
      _open c = true /\ _count c < N /\ is_writable c = true /\
      write v c = (returned write_status.success, c', [notify_one _readable]) /\
      consistent N c' /\ pending c' = pending c ++ [v] /\
      _open c' = true /\ _count c' = _count c + 1).
Proof.
  intros Hc. pose proof Hc as (Hsz & HN & Hrp & Hn & Hwp & Hm).
  destruct (_open c) eqn:Ho.
  - right. destruct (Z.eq_dec (_count c) N) as [Hfull|Hroom].
    + left. repeat split; auto.
      * unfold is_writable. rewrite Ho, Hsz. simpl.
        apply Z.ltb_ge. lia.
      * apply (buf_write_full v c N); assumption.
    + right. eexists. split; [reflexivity|]. split; [lia|]. split.
      { unfold is_writable. rewrite Ho, Hsz. simpl. apply Z.ltb_lt. lia. }
      split; [apply (buf_write_room v c N); [assumption | assumption | lia]|].
      assert (Hwpr : 0 <= _write_position c < N)
        by (rewrite Hwp; apply Z.mod_pos_bound; lia).
      split; [|split; [|split; reflexivity]].
      * unfold consistent, size in *; simpl. rewrite length_insert.
        repeat split; try lia.
        rewrite Hwp, Zplus_mod_idemp_l. f_equal. lia.
      * unfold pending; simpl. unfold size in Hsz.
        replace (Z.to_nat (_count c + 1)) with (S (Z.to_nat (_count c))) by lia.
        rewrite Hwp, <- Hsz.
        replace (_count c) with (Z.of_nat (Z.to_nat (_count c))) at 1 by lia.
        apply window_snoc; lia.
  - left. repeat split; auto.
    + unfold is_writable. rewrite Ho. reflexivity.
    + apply buf_write_closed; assumption.
Qed.

(** *** One call *)

(** A read, or a timed read that gave up. *)
Lemma buf_step_read (m : M (t T) (read_status.t * T)) out c N :
  consistent N c ->
  m c = read out c \/
  (is_readable c = false /\ m c = (returned (read_status.timeout, out), c, [])) ->
  let r := bind m (fun r => ret (read_reply (fst r) (snd r))) c in
  consistent N (after r) /\
  delivered (result r) ++ pending (after r) = pending c /\
  _open (after r) = _open c /\
  (_count c = 0 -> after r = c).
Proof.
  intros Hc Hm r. subst r. rewrite bind_ret_map.
  destruct Hm as [Hm | [_ Hm]]; rewrite Hm; [|simpl; auto].
  destruct (buf_read_spec out c N Hc)
    as [(_ & _ & _ & E) | [(_ & _ & _ & E) | (x & c' & Hpos & _ & E & Hc' & Hp & Ho & _)]];
    rewrite E; unfold result, after, sent; simpl; auto.
  split; [exact Hc'|]. split; [symmetry; exact Hp|]. split; [exact Ho|].
  intros Hz. lia.
Qed.

(** A write, or a timed write that gave up. *)
Lemma buf_step_write (m : M (t T) write_status.t) v c N :
  consistent N c ->
  m c = write v c \/
  (is_writable c = false /\ m c = (returned write_status.timeout, c, [])) ->
  let r := bind m (fun r => ret (write_reply r)) c in
  consistent N (after r) /\
  pending (after r) =
    pending c ++ match result r with
                 | returned (write_reply write_status.success) => [v]
                 | _ => []
                 end /\
  @delivered T (result r) = [] /\
  _open (after r) = _open c /\
  (_open c = false -> after r = c).
Proof.
  intros Hc Hm r. subst r. rewrite bind_ret_map.
  destruct Hm as [Hm | [_ Hm]]; rewrite Hm;
    [|simpl; rewrite app_nil_r; auto].
  destruct (buf_write_spec v c N Hc)
    as [(Ho & _ & E) | [(Ho & _ & _ & E) | (c' & Ho & _ & _ & E & Hc' & Hp & Ho' & _)]];
    rewrite E; unfold result, after, sent; simpl; rewrite ?app_nil_r; auto.
  split; [exact Hc'|]. split; [exact Hp|]. split; [reflexivity|].
  split; intros; congruence.
Qed.

Lemma buf_step_close c N :
  consistent N c ->
  let r := perform call_close c in
  consistent N (after r) /\ pending (after r) = pending c /\
  @delivered T (result r) = [] /\ _open (after r) = false /\
  (_open c = false -> after r = c).
Proof.
  intros Hc r. subst r. pose proof Hc as (Hsz & HN & Hrp & Hn & Hwp & Hm).
  cbn [perform]. rewrite bind_ret_map, (buf_close c Hm).
  unfold result, after, sent; simpl.
  split; [exact Hc|]. repeat split.
  intros Ho. destruct c; simpl in *; subst; reflexivity.
Qed.

Lemma buf_timed_read (m : M (t T) (read_status.t * T)) out c :
  m c = (if is_readable c then read out c
         else (returned (read_status.timeout, out), c, [])) ->
  m c = read out c \/
  (is_readable c = false /\ m c = (returned (read_status.timeout, out), c, [])).
Proof. intros ->. destruct (is_readable c); [left | right]; auto. Qed.

Lemma buf_timed_write (m : M (t T) write_status.t) v c :
  m c = (if is_writable c then write v c
         else (returned write_status.timeout, c, [])) ->
  m c = write v c \/
  (is_writable c = false /\ m c = (returned write_status.timeout, c, [])).
Proof. intros ->. destruct (is_writable c); [left | right]; auto. Qed.

Lemma buf_step k c N :
  consistent N c ->
  consistent N (step perform k c) /\
  delivered (result (perform k c)) ++ pending (step perform k c)
    = pending c ++ accepted k (result (perform k c)) /\
  _open (step perform k c) = (if is_close k then false else _open c) /\
  (_open c = false -> _count c = 0 -> step perform k c = c).
Proof.
  intros Hc. pose proof Hc as (_ & _ & _ & _ & _ & Hm). unfold step.
  destruct k as [out|out d|out d|v|v d|v d|]; cbn [perform is_close accepted].
  - destruct (buf_step_read (read out) out c N Hc) as (H1 & H2 & H3 & H4);
      [left; reflexivity|].
    rewrite app_nil_r. auto.
  - destruct (buf_step_read (read_for out d) out c N Hc) as (H1 & H2 & H3 & H4);
      [apply buf_timed_read, buf_read_for, Hm|].
    rewrite app_nil_r. auto.
  - destruct (buf_step_read (read_until out d) out c N Hc) as (H1 & H2 & H3 & H4);
      [apply buf_timed_read, buf_read_for, Hm|].
    rewrite app_nil_r. auto.
  - destruct (buf_step_write (write v) v c N Hc) as (H1 & H2 & H3 & H4 & H5);
      [left; reflexivity|].
    rewrite H3, H2. simpl.
    split; [exact H1|]. split; [|split; auto].
    destruct (result _) as [[| [] |]| | |]; reflexivity.
  - destruct (buf_step_write (write_for v d) v c N Hc) as (H1 & H2 & H3 & H4 & H5);
      [apply buf_timed_write, buf_write_for, Hm|].
    rewrite H3, H2. simpl.
    split; [exact H1|]. split; [|split; auto].
    destruct (result _) as [[| [] |]| | |]; reflexivity.
  - destruct (buf_step_write (write_until v d) v c N Hc) as (H1 & H2 & H3 & H4 & H5);
      [apply buf_timed_write, buf_write_for, Hm|].
    rewrite H3, H2. simpl.
    split; [exact H1|]. split; [|split; auto].
    destruct (result _) as [[| [] |]| | |]; reflexivity.
  - destruct (buf_step_close c N Hc) as (H1 & H2 & H3 & H4 & H5).
    cbn [perform] in H1, H2, H3, H4, H5.
    rewrite H3, app_nil_r. simpl. auto.
Qed.

(** *** Runs *)

Lemma buf_run_consistent calls c N :
  consistent N c -> consistent N (run perform calls c).
Proof.
  revert c. induction calls as [|k calls IH]; intros c Hc; simpl; [exact Hc|].
  apply IH, (buf_step k c N Hc).
Qed.

(** The values read, then the values still pending, are the values that
    were pending, then the values written: nothing is lost, repeated or
    reordered. *)
Lemma buf_run_fifo calls c N :
  consistent N c ->
  values_read perform calls c ++ pending (run perform calls c)
  = pending c ++ values_written perform calls c.
Proof.
  revert c. induction calls as [|k calls IH]; intros c Hc; simpl.
  - rewrite app_nil_r. reflexivity.
  - destruct (buf_step k c N Hc) as (Hc' & Hfifo & _).
    rewrite <- app_assoc, (IH _ Hc'), !app_assoc, Hfifo. reflexivity.
Qed.

Lemma buf_run_open calls c N :
  consistent N c ->
  forallb (fun k => negb (is_close k)) calls = true ->
  _open (run perform calls c) = _open c.
Proof.
  revert c. induction calls as [|k calls IH]; intros c Hc Hno; simpl; [reflexivity|].
  simpl in Hno. apply andb_true_iff in Hno as [Hk Hno].
  destruct (buf_step k c N Hc) as (Hc' & _ & Ho & _).
  rewrite (IH _ Hc' Hno), Ho. destruct (is_close k); [discriminate | reflexivity].
Qed.

Lemma buf_run_stays_closed calls c N :
  consistent N c -> _open c = false -> _open (run perform calls c) = false.
Proof.
  revert c. induction calls as [|k calls IH]; intros c Hc Ho; simpl; [exact Ho|].
  destruct (buf_step k c N Hc) as (Hc' & _ & Ho' & _).
  apply (IH _ Hc'). rewrite Ho', Ho. destruct (is_close k); reflexivity.
Qed.

(** A closed and empty channel is a fixed point of every call. *)
Lemma buf_run_drained calls c N :
  consistent N c -> _open c = false -> _count c = 0 ->
  run perform calls c = c.
Proof.
  intros Hc Ho Hz. induction calls as [|k calls IH]; simpl; [reflexivity|].
  destruct (buf_step k c N Hc) as (_ & _ & _ & Hfix).
  rewrite (Hfix Ho Hz). exact IH.
Qed.

Lemma window_length (vs : list T) (n : nat) :
  forall p : Z, 0 <= p < Z.of_nat (length vs) -> length (window vs p n) = n.
Proof.
  induction n as [|n IH]; intros p Hp; [reflexivity|].
  rewrite window_S.
  destruct (lookup_lt_is_Some_2 vs (Z.to_nat p)) as [x Hx]; [lia|].
  rewrite Hx. simpl. f_equal. apply IH, Z.mod_pos_bound. lia.
Qed.

Lemma buf_pending_length c N :
  consistent N c -> Z.of_nat (length (pending c)) = _count c.
Proof.
  intros (Hsz & HN & Hrp & Hn & Hwp & Hm). unfold pending, size in *.
  rewrite window_length by lia. lia.
Qed.

(** Writes into the room that is left all go through. *)
Lemma buf_run_writes (vs : list T) :
  forall c N,
    consistent N c -> _open c = true ->
    _count c + Z.of_nat (length vs) <= N ->
    let c' := run perform (map call_write vs) c in
    values_written perform (map call_write vs) c = vs /\
    pending c' = pending c ++ vs /\
    _count c' = _count c + Z.of_nat (length vs) /\
    _open c' = true.
Proof.
  induction vs as [|v vs IH]; intros c N Hc Ho Hroom; simpl.
  - rewrite app_nil_r. repeat split; [lia | exact Ho].
  - simpl in Hroom.
    destruct (buf_write_spec v c N Hc)
      as [(Ho' & _) | [(_ & Hfull & _) | (c' & _ & _ & _ & E & Hc' & Hp & Ho' & Hn')]];
      [congruence | lia |].
    unfold step. cbn [perform]. rewrite bind_ret_map, E.
    unfold result, after, sent; simpl.
    destruct (IH c' N Hc' Ho') as (Hw & Hpend & Hcount & Hopen); [lia|].
    rewrite Hw, Hpend, Hp, Hcount, Hn', <- app_assoc. simpl.
    repeat split; [lia | exact Hopen].
Qed.

Lemma buf_constructed (d : T) lim N c0 :
  buffered_channel d lim N = returned c0 ->
  0 <= N < size_t_modulus ->
  consistent N c0 /\ _open c0 = true /\ _count c0 = 0 /\
  _read_position c0 = 0 /\ _write_position c0 = 0 /\ pending c0 = [].
Proof.
  unfold buffered_channel. destruct (Z.eqb_spec N 0) as [|Hnz]; [discriminate|].
  destruct (max_size lim <? N); [discriminate|].
  destruct (allocatable lim <? N); [discriminate|].
  intros [= <-] HN. unfold consistent, size, pending; simpl.
  rewrite repeat_length. repeat split; lia.
Qed.

End Buffered.

(** ** The model at work *)

Example slot_write_then_read :
  channel.read 0 (after (channel.write 5 (channel.channel 0)))
  = (returned (read_status.success, 5),
     {| channel._value := 5; channel._state := channel.writable;
        channel._mutex := false |},
     [notify_one _writable]).
Proof. reflexivity. Qed.

Example slot_read_parks_on_empty :
  channel.read 0 (channel.channel 0) = (waiting, channel.channel 0, []).
Proof. reflexivity. Qed.

Example slot_write_parks_on_full :
  let c := after (channel.write 5 (channel.channel 0)) in
  channel.write 6 c = (waiting, c, []).
Proof. reflexivity. Qed.

(** Each of the five transitions is taken on some run from the constructor. *)
Example slot_transitions_occur :
  let c0 := channel.channel 0 in
  let full := step channel.perform (call_write 1) c0 in
  let last := step channel.perform call_close full in
  channel._state c0 = channel.writable /\
  channel._state full = channel.readable /\
  channel._state (step channel.perform (call_read 0) full) = channel.writable /\
  channel._state (step channel.perform call_close c0) = channel.closed /\
  channel._state last = channel.closing /\
  channel._state (step channel.perform (call_read 0) last) = channel.closed.
Proof. repeat split. Qed.

(** A channel of capacity 2: the third write parks, the reads hand the
    values out in the order written, the read after the drain returns
    [closed]. *)
Example buffered_run :
  let c0 := {| buffered_channel._values := [0; 0];
               buffered_channel._mutex := false;
               buffered_channel._read_position := 0;
               buffered_channel._write_position := 0;
               buffered_channel._count := 0;
               buffered_channel._open := true |} in
  let calls := [call_write 1; call_write 2; call_write 3; call_read 0;
                call_write 4; call_read 0; call_read 0; call_close] in
  buffered_channel.buffered_channel 0 example_limits 2 = returned c0 /\
  result (buffered_channel.perform (call_write 3)
            (run buffered_channel.perform [call_write 1; call_write 2] c0))
  = waiting /\
  values_written buffered_channel.perform calls c0 = [1; 2; 4] /\
  values_read buffered_channel.perform calls c0 = [1; 2; 4] /\
  result (buffered_channel.read 9 (run buffered_channel.perform calls c0))
  = returned (read_status.closed, 9).
Proof. repeat split. Qed.

(** * The claims *)

(** ** Single-slot channel *)

(** C1. Close after write delivers the last value: when [write v] returns
    [success] and [close] is called next, the channel is [closing], the next
    read returns [success] with [v] in the output reference and leaves the
    channel [closed]; after that, whatever calls are made, every read (timed
    or not) returns [closed]. *)
Theorem close_after_write_delivers_last_value :
  forall (T : Type) (c : channel.t T) (v out : T),
    result (channel.write v c) = returned write_status.success ->
    let c1 := after (channel.write v c) in
    let c2 := after (channel.close c1) in
    let c3 := after (channel.read out c2) in
    channel._state c1 = channel.readable /\
    channel._state c2 = channel.closing /\
    channel.read out c2
      = (returned (read_status.success, v), c3, [notify_all _readable]) /\
    channel._state c3 = channel.closed /\
    forall (calls : list (call T)) (out' : T) (d : Z),
      let c4 := run channel.perform calls c3 in
      channel.read out' c4 = (returned (read_status.closed, out'), c4, []) /\
      channel.read_for out' d c4 = (returned (read_status.closed, out'), c4, []) /\
      channel.read_until out' d c4 = (returned (read_status.closed, out'), c4, []).
Proof.
  intros T c v out Hw.
  destruct (slot_write_success v c Hw) as [Hs Hm].
  destruct c as [v0 s m]; simpl in Hs, Hm; subst s m. simpl.
  repeat split.
  all: rewrite slot_closed_run by reflexivity; reflexivity.
Qed.

Lemma close_after_write_delivers_last_value_witness :
  result (channel.write 7 (channel.channel 0)) = returned write_status.success /\
  result (channel.read 0
            (after (channel.close (after (channel.write 7 (channel.channel 0))))))
  = returned (read_status.success, 7).
Proof.
  split; [reflexivity|].
  pose proof (close_after_write_delivers_last_value
                Z (channel.channel 0) 7 0 eq_refl) as (_ & _ & H & _).
  rewrite H. reflexivity.
Defined.

(** C3. From the writable channel the constructor makes, every call of
    read, write or close (timed or not) either leaves the state where it is
    or moves it along one of writable -> readable (write), readable ->
    writable (read), writable -> closed (close), readable -> closing (close),
    closing -> closed (read); and a closed channel stays closed. *)
Theorem single_slot_state_transitions :
  forall (T : Type) (init : T) (calls : list (call T)) (k : call T),
    let c := run channel.perform calls (channel.channel init) in
    let c' := step channel.perform k c in
    (channel._state c' = channel._state c \/
     channel.transition (channel._state c) (operation_of k) (channel._state c')) /\
    (channel._state c = channel.closed -> c' = c).
Proof.
  intros T init calls k c c'.
  assert (Hm : channel._mutex c = false) by (apply slot_run_idle; reflexivity).
  split.
  - apply slot_step_transition, Hm.
  - intros Hs. apply slot_closed_step; assumption.
Qed.

(** C7. Close before read on an empty channel: from the state [writable],
    [close] returns and leaves the channel [closed]; the wait of the read
    that follows goes through at once, and the read returns [closed], the
    output reference holding what it held, the channel as it was. *)
Theorem close_before_read_on_empty :
  forall (T : Type) (c : channel.t T) (out : T),
    channel._state c = channel.writable ->
    channel._mutex c = false ->
    let c1 := after (channel.close c) in
    result (channel.close c) = returned tt /\
    channel._state c1 = channel.closed /\
    channel.wait _readable channel.writable (channel.set_mutex true c1)
      = (returned tt, channel.set_mutex true c1, []) /\
    channel.read out c1 = (returned (read_status.closed, out), c1, []).
Proof.
  intros T c out Hs Hm.
  destruct c as [v0 s m]; simpl in Hs, Hm; subst s m. simpl.
  repeat split.
Qed.

Lemma close_before_read_on_empty_witness :
  channel.read 5 (after (channel.close (channel.channel 0)))
  = (returned (read_status.closed, 5),
     after (channel.close (channel.channel 0)), []).
Proof.
  exact (proj2 (proj2 (proj2
    (close_before_read_on_empty Z (channel.channel 0) 5 eq_refl eq_refl)))).
Defined.

(** C9. The internal read step run in the state [writable] throws
    [channel_exception(channel_error::illegal_write)], the error a write to
    a closing or closed channel throws, for which [_error_messages] holds
    the text "illegal write on closed channel"; the channel is left as it
    was. [channel_error] has no other value than [illegal_write] and
    [invalid_size]. *)
Theorem read_step_on_writable_raises_illegal_write :
  forall (T : Type) (c : channel.t T) (out : T),
    channel._state c = channel.writable ->
    channel.read_channel out c = (thrown illegal_write, c, []) /\
    (forall (c' : channel.t T) (v : T),
        channel._mutex c' = false ->
        channel._state c' = channel.closing \/ channel._state c' = channel.closed ->
        result (channel.write v c') = thrown illegal_write) /\
    find illegal_write _error_messages
    = Some "illegal write on closed channel"%string /\
    (forall e : channel_error, e = illegal_write \/ e = invalid_size).
Proof.
  intros T c out Hs. split; [|split; [|split]].
  - destruct c as [v0 s m]; simpl in Hs; subst s. reflexivity.
  - intros c' v Hm' Hs'. rewrite (slot_write_closed v c' Hm' Hs'). reflexivity.
  - apply illegal_write_message.
  - apply channel_error_cases.
Qed.

Lemma read_step_on_writable_raises_illegal_write_witness :
  channel.read_channel 0 (channel.channel 9)
  = (thrown illegal_write, channel.channel 9, []).
Proof.
  exact (proj1
    (read_step_on_writable_raises_illegal_write Z (channel.channel 9) 0 eq_refl)).
Defined.

(** ** Both channels *)

(** C4. A write (timed or not) to a closed channel throws
    [illegal_write] and leaves the channel as it was, with nothing notified:
    the single-slot channel in the state [closing] or [closed], the buffered
    channel with [_open] false, whatever its count. *)
Theorem write_on_closed_raises_illegal_write :
  forall (T : Type) (c : channel.t T) (b : buffered_channel.t T) (v : T) (d : Z),
    channel._mutex c = false ->
    channel._state c = channel.closing \/ channel._state c = channel.closed ->
    buffered_channel._mutex b = false ->
    buffered_channel._open b = false ->
    (channel.write v c = (thrown illegal_write, c, []) /\
     channel.write_for v d c = (thrown illegal_write, c, []) /\
     channel.write_until v d c = (thrown illegal_write, c, [])) /\
    (buffered_channel.write v b = (thrown illegal_write, b, []) /\
     buffered_channel.write_for v d b = (thrown illegal_write, b, []) /\
     buffered_channel.write_until v d b = (thrown illegal_write, b, [])).
Proof.
  intros T c b v d Hm Hs Hmb Hob. split.
  - assert (E : channel.write_for v d c = (thrown illegal_write, c, [])).
    { rewrite slot_timed_write_for, Hm, (slot_write_closed v c Hm Hs).
      destruct Hs as [Hs|Hs]; rewrite Hs; reflexivity. }
    split; [apply slot_write_closed; assumption|]. split; exact E.
  - assert (E : buffered_channel.write_for v d b = (thrown illegal_write, b, [])).
    { rewrite (buf_write_for v d b Hmb), (buf_write_closed v b Hmb Hob).
      unfold buffered_channel.is_writable. rewrite Hob. reflexivity. }
    split; [apply buf_write_closed; assumption|]. split; exact E.
Qed.

Lemma write_on_closed_raises_illegal_write_witness :
  let c := after (channel.close (after (channel.write 1 (channel.channel 0)))) in
  let b := {| buffered_channel._values := [4; 0; 0];
              buffered_channel._mutex := false;
              buffered_channel._read_position := 0;
              buffered_channel._write_position := 1;
              buffered_channel._count := 1;
              buffered_channel._open := false |} in
  channel.write 2 c = (thrown illegal_write, c, []) /\
  buffered_channel.write 2 b = (thrown illegal_write, b, []).
Proof.
  pose proof (write_on_closed_raises_illegal_write Z
    (after (channel.close (after (channel.write 1 (channel.channel 0)))))
    {| buffered_channel._values := [4; 0; 0];
       buffered_channel._mutex := false;
       buffered_channel._read_position := 0;
       buffered_channel._write_position := 1;
       buffered_channel._count := 1;
       buffered_channel._open := false |}
    2 10 eq_refl (or_introl eq_refl) eq_refl eq_refl) as [[H1 _] [H2 _]].
  split; [exact H1 | exact H2].
Defined.

(** C6. A timed call whose wait ends with its predicate false returns
    [timeout] and leaves everything as it was: the fields of the channel,
    the output reference, and nothing is notified. This is the only way a
    call returns [timeout]; the same call made again behaves as if the
    first had not been made. *)
Theorem timed_out_call_changes_nothing :
  forall (T : Type) (c : channel.t T) (b : buffered_channel.t T)
         (v out : T) (d : Z),
    channel._mutex c = false ->
    buffered_channel._mutex b = false ->
    (* single-slot channel *)
    (channel._state c = channel.writable ->
       channel.read_for out d c = (returned (read_status.timeout, out), c, []) /\
       channel.read_until out d c = (returned (read_status.timeout, out), c, [])) /\
    (channel._state c = channel.readable ->
       channel.write_for v d c = (returned write_status.timeout, c, []) /\
       channel.write_until v d c = (returned write_status.timeout, c, [])) /\
    (forall x, result (channel.read_for out d c) = returned (read_status.timeout, x) ->
       channel.read_for out d c = (returned (read_status.timeout, out), c, [])) /\
    (forall x, result (channel.read_until out d c) = returned (read_status.timeout, x) ->
       channel.read_until out d c = (returned (read_status.timeout, out), c, [])) /\
    (result (channel.write_for v d c) = returned write_status.timeout ->
       channel.write_for v d c = (returned write_status.timeout, c, [])) /\
    (result (channel.write_until v d c) = returned write_status.timeout ->
       channel.write_until v d c = (returned write_status.timeout, c, [])) /\
    (* buffered channel *)
    (buffered_channel.is_readable b = false ->
       buffered_channel.read_for out d b = (returned (read_status.timeout, out), b, []) /\
       buffered_channel.read_until out d b = (returned (read_status.timeout, out), b, [])) /\
    (buffered_channel.is_writable b = false ->
       buffered_channel.write_for v d b = (returned write_status.timeout, b, []) /\
       buffered_channel.write_until v d b = (returned write_status.timeout, b, [])) /\
    (forall x, result (buffered_channel.read_for out d b) = returned (read_status.timeout, x) ->
       buffered_channel.read_for out d b = (returned (read_status.timeout, out), b, [])) /\
    (forall x, result (buffered_channel.read_until out d b) = returned (read_status.timeout, x) ->
       buffered_channel.read_until out d b = (returned (read_status.timeout, out), b, [])) /\
    (result (buffered_channel.write_for v d b) = returned write_status.timeout ->
       buffered_channel.write_for v d b = (returned write_status.timeout, b, [])) /\
    (result (buffered_channel.write_until v d b) = returned write_status.timeout ->
       buffered_channel.write_until v d b = (returned write_status.timeout, b, [])).
Proof.
  intros T c b v out d Hm Hmb.
  repeat match goal with |- _ /\ _ => split end.
  - intros Hs. destruct c as [v0 s m]; simpl in Hm, Hs; subst s m. split; reflexivity.
  - intros Hs. destruct c as [v0 s m]; simpl in Hm, Hs; subst s m. split; reflexivity.
  - intros x. apply slot_read_timeout_inv.
  - intros x. apply (slot_read_timeout_inv out d c x).
  - apply slot_write_timeout_inv.
  - apply (slot_write_timeout_inv v d c).
  - intros Hr.
    assert (E : buffered_channel.read_for out d b
                = (returned (read_status.timeout, out), b, []))
      by (rewrite (buf_read_for out d b Hmb), Hr; reflexivity).
    split; exact E.
  - intros Hw.
    assert (E : buffered_channel.write_for v d b
                = (returned write_status.timeout, b, []))
      by (rewrite (buf_write_for v d b Hmb), Hw; reflexivity).
    split; exact E.
  - intros x. apply buf_read_timeout_inv, Hmb.
  - intros x. apply (buf_read_timeout_inv out d b x Hmb).
  - apply buf_write_timeout_inv, Hmb.
  - apply (buf_write_timeout_inv v d b Hmb).
Qed.

Lemma timed_out_call_changes_nothing_witness :
  let c := channel.channel 0 in
  let b := {| buffered_channel._values := [0; 0];
              buffered_channel._mutex := false;
              buffered_channel._read_position := 0;
              buffered_channel._write_position := 0;
              buffered_channel._count := 0;
              buffered_channel._open := true |} in
  channel.read_for 5 100 c = (returned (read_status.timeout, 5), c, []) /\
  buffered_channel.read_for 5 100 b = (returned (read_status.timeout, 5), b, []).
Proof.
  pose proof (timed_out_call_changes_nothing Z (channel.channel 0)
    {| buffered_channel._values := [0; 0];
       buffered_channel._mutex := false;
       buffered_channel._read_position := 0;
       buffered_channel._write_position := 0;
       buffered_channel._count := 0;
       buffered_channel._open := true |}
    1 5 100 eq_refl eq_refl)
    as (H1 & _ & _ & _ & _ & _ & H2 & _).
  split; [exact (proj1 (H1 eq_refl)) | exact (proj1 (H2 eq_refl))].
Defined.

(** C10. A read (timed or not) that returns [closed] is a no-op on the
    channel: the output reference holds what it held and the fields are what
    they were (single-slot: the state is [closed] before and after, the
    slot is not touched; buffered: [_open] is false and [_count] is 0 before
    and after, the cursors and the storage are not touched), so the same
    read made again returns [closed] again. The buffered read notifies the
    readers on its way out; the single-slot read notifies nobody. *)
Theorem closed_read_is_a_no_op :
  forall (T : Type) (c : channel.t T) (b : buffered_channel.t T)
         (out x : T) (d : Z),
    channel._mutex c = false ->
    buffered_channel._mutex b = false ->
    (result (channel.read out c) = returned (read_status.closed, x) ->
       channel._state c = channel.closed /\
       channel.read out c = (returned (read_status.closed, out), c, []) /\
       channel.read out (after (channel.read out c)) = channel.read out c) /\
    (result (channel.read_for out d c) = returned (read_status.closed, x) ->
       channel._state c = channel.closed /\
       channel.read_for out d c = (returned (read_status.closed, out), c, [])) /\
    (result (channel.read_until out d c) = returned (read_status.closed, x) ->
       channel._state c = channel.closed /\
       channel.read_until out d c = (returned (read_status.closed, out), c, [])) /\
    (result (buffered_channel.read out b) = returned (read_status.closed, x) ->
       buffered_channel._open b = false /\ buffered_channel._count b = 0 /\
       buffered_channel.read out b
         = (returned (read_status.closed, out), b, [notify_all _readable]) /\
       buffered_channel.read out (after (buffered_channel.read out b))
         = buffered_channel.read out b) /\
    (result (buffered_channel.read_for out d b) = returned (read_status.closed, x) ->
       buffered_channel._open b = false /\ buffered_channel._count b = 0 /\
       buffered_channel.read_for out d b
         = (returned (read_status.closed, out), b, [notify_all _readable])) /\
    (result (buffered_channel.read_until out d b) = returned (read_status.closed, x) ->
       buffered_channel._open b = false /\ buffered_channel._count b = 0 /\
       buffered_channel.read_until out d b
         = (returned (read_status.closed, out), b, [notify_all _readable])).
Proof.
  intros T c b out x d Hm Hmb.
  assert (Hslot : result (channel.read out c) = returned (read_status.closed, x) ->
                  channel._state c = channel.closed /\
                  channel.read out c = (returned (read_status.closed, out), c, [])).
  { intros H. destruct (slot_read_closed_inv out c x H) as (Hs & _ & _).
    split; [exact Hs | apply slot_read_closed; assumption]. }
  assert (Hbuf : result (buffered_channel.read out b) = returned (read_status.closed, x) ->
                 buffered_channel._open b = false /\ buffered_channel._count b = 0 /\
                 buffered_channel.read out b
                 = (returned (read_status.closed, out), b, [notify_all _readable])).
  { intros H. destruct (buf_read_closed_inv out b x H) as (_ & Ho & Hz & _).
    split; [exact Ho|]. split; [exact Hz|].
    apply buf_read_closed_empty; assumption. }
  repeat match goal with |- _ /\ _ => split end.
  - intros H. destruct (Hslot H) as [Hs E]. rewrite E. auto.
  - rewrite slot_timed_read_for, Hm.
    destruct (channel.channel_state_eqb (channel._state c) channel.writable);
      [discriminate | exact Hslot].
  - change (channel.read_until out d c) with (channel.read_for out d c).
    rewrite slot_timed_read_for, Hm.
    destruct (channel.channel_state_eqb (channel._state c) channel.writable);
      [discriminate | exact Hslot].
  - intros H. destruct (Hbuf H) as (Ho & Hz & E). rewrite E. auto.
  - rewrite (buf_read_for out d b Hmb).
    destruct (buffered_channel.is_readable b); [exact Hbuf | discriminate].
  - change (buffered_channel.read_until out d b)
      with (buffered_channel.read_for out d b).
    rewrite (buf_read_for out d b Hmb).
    destruct (buffered_channel.is_readable b); [exact Hbuf | discriminate].
Qed.

Lemma closed_read_is_a_no_op_witness :
  let c := after (channel.close (channel.channel 0)) in
  let b := {| buffered_channel._values := [4; 0; 0];
              buffered_channel._mutex := false;
              buffered_channel._read_position := 1;
              buffered_channel._write_position := 1;
              buffered_channel._count := 0;
              buffered_channel._open := false |} in
  channel.read 5 c = (returned (read_status.closed, 5), c, []) /\
  buffered_channel.read 5 b
    = (returned (read_status.closed, 5), b, [notify_all _readable]).
Proof.
  pose proof (closed_read_is_a_no_op Z (after (channel.close (channel.channel 0)))
    {| buffered_channel._values := [4; 0; 0];
       buffered_channel._mutex := false;
       buffered_channel._read_position := 1;
       buffered_channel._write_position := 1;
       buffered_channel._count := 0;
       buffered_channel._open := false |}
    5 5 100 eq_refl eq_refl)
    as (H1 & _ & _ & H2 & _).
  split; [exact (proj1 (proj2 (H1 eq_refl))) | exact (proj1 (proj2 (proj2 (H2 eq_refl))))].
Defined.

(** ** Buffered channel *)

(** C8, as stated, fails: a capacity [N >= 1] that the constructor turns
    down. [SIZE_MAX] elements are more than [max_size()] whatever the
    element type ([max_size()] is at most [PTRDIFF_MAX], here [2^63 - 1]),
    so [_values.resize] throws [std::length_error] and no channel is
    made. *)
Lemma buffered_construction_beyond_max_size :
  1 <= 2 ^ 64 - 1 /\
  buffered_channel.buffered_channel (T:=Z) 0
    {| max_size := 2 ^ 63 - 1; allocatable := 2 ^ 63 - 1 |} (2 ^ 64 - 1)
  = thrown length_error.
Proof. split; [lia | reflexivity]. Qed.

(** C8, amended. Constructing a buffered channel of capacity 0 throws
    [invalid_size] and leaves no object; constructing one of capacity
    [N >= 1] that the storage can take ([N] is at most [max_size()] and the
    allocator supplies [N] elements) returns an open channel with count 0,
    both cursors 0 and a storage of [N] value-initialised elements; for a
    larger [N] the resize throws ([std::length_error] above [max_size()],
    [std::bad_alloc] when the allocation fails) and no channel is made. *)
Theorem buffered_construction_within_limits :
  forall (T : Type) (d : T) (lim : vector_limits) (N : Z),
    1 <= N ->
    buffered_channel.buffered_channel d lim 0 = thrown invalid_size /\
    (N <= max_size lim -> N <= allocatable lim ->
     exists c : buffered_channel.t T,
       buffered_channel.buffered_channel d lim N = returned c /\
       buffered_channel._open c = true /\
       buffered_channel._count c = 0 /\
       buffered_channel._read_position c = 0 /\
       buffered_channel._write_position c = 0 /\
       buffered_channel.size c = N /\
       buffered_channel._values c = repeat d (Z.to_nat N) /\
       buffered_channel._mutex c = false) /\
    (max_size lim < N ->
     buffered_channel.buffered_channel d lim N = thrown length_error) /\
    (N <= max_size lim -> allocatable lim < N ->
     buffered_channel.buffered_channel d lim N = thrown bad_alloc).
Proof.
  intros T d lim N HN. split; [reflexivity|].
  unfold buffered_channel.buffered_channel.
  destruct (Z.eqb_spec N 0) as [|_]; [lia|].
  destruct (Z.ltb_spec (max_size lim) N) as [Hbig|Hfits];
    [|destruct (Z.ltb_spec (allocatable lim) N) as [Hout|Hroom]].
  - split; [lia|]. split; [reflexivity | lia].
  - split; [lia|]. split; [lia | reflexivity].
  - split; [|split; lia].
    intros _ _. eexists. split; [reflexivity|].
    unfold buffered_channel.size. simpl. rewrite repeat_length.
    repeat split. lia.
Qed.

Lemma buffered_construction_within_limits_witness :
  buffered_channel.buffered_channel 0 example_limits 0 = thrown invalid_size /\
  exists c : buffered_channel.t Z,
    buffered_channel.buffered_channel 0 example_limits 3 = returned c /\
    buffered_channel._open c = true /\
    buffered_channel._count c = 0 /\
    buffered_channel._read_position c = 0 /\
    buffered_channel._write_position c = 0 /\
    buffered_channel.size c = 3 /\
    buffered_channel._values c = [0; 0; 0] /\
    buffered_channel._mutex c = false.
Proof.
  assert (HN : 1 <= 3) by lia.
  destruct (buffered_construction_within_limits Z 0 example_limits 3 HN)
    as (H0 & Hok & _).
  split; [exact H0|]. apply Hok; unfold example_limits; simpl; lia.
Defined.

(** C2. Ring buffer FIFO and capacity bound. Take a channel constructed
    with capacity [K] and any sequence of reads and writes (timed or not, no
    close) on it. The channel is open; writing is enabled exactly while
    [_count < K], and a write then returns [success] and puts its value
    behind the pending ones; at [_count = K] a write parks with the channel
    untouched, and is enabled again after a read. On the fresh channel [K]
    writes in a row all return [success] and one more parks. A read of a
    non-empty channel returns the oldest pending value, and the values read
    in the run followed by the values still pending are the values written,
    in the order they were written. *)
Theorem ring_buffer_fifo_and_capacity :
  forall (T : Type) (d : T) (lim : vector_limits) (K : Z) (c0 : buffered_channel.t T)
         (calls : list (call T)),
    0 <= K < size_t_modulus ->
    buffered_channel.buffered_channel d lim K = returned c0 ->
    forallb (fun k => negb (is_close k)) calls = true ->
    let c := run buffered_channel.perform calls c0 in
    buffered_channel._open c = true /\
    (buffered_channel.is_writable c = true <-> buffered_channel._count c < K) /\
    (forall v,
        buffered_channel._count c < K ->
        result (buffered_channel.write v c) = returned write_status.success /\
        buffered_channel._count (after (buffered_channel.write v c))
          = buffered_channel._count c + 1 /\
        buffered_channel.pending (after (buffered_channel.write v c))
          = buffered_channel.pending c ++ [v]) /\
    (forall v out,
        buffered_channel._count c = K ->
        buffered_channel.write v c = (waiting, c, []) /\
        buffered_channel.is_writable (after (buffered_channel.read out c)) = true) /\
    (forall (vs : list T) (v : T),
        Z.of_nat (length vs) = K ->
        let full := run buffered_channel.perform (map call_write vs) c0 in
        values_written buffered_channel.perform (map call_write vs) c0 = vs /\
        buffered_channel.pending full = vs /\
        buffered_channel.write v full = (waiting, full, [])) /\
    (forall out,
        0 < buffered_channel._count c ->
        exists x rest,
          buffered_channel.pending c = x :: rest /\
          result (buffered_channel.read out c) = returned (read_status.success, x) /\
          buffered_channel.pending (after (buffered_channel.read out c)) = rest) /\
    (forall out,
        buffered_channel._count c = 0 ->
        buffered_channel.read out c = (waiting, c, [])) /\
    values_read buffered_channel.perform calls c0 ++ buffered_channel.pending c
      = values_written buffered_channel.perform calls c0 /\
    Z.of_nat (length (buffered_channel.pending c)) = buffered_channel._count c.
Proof.
  intros T d lim K c0 calls HK Hctor Hno c.
  destruct (buf_constructed d lim K c0 Hctor HK) as (Hc0 & Ho0 & Hz0 & _ & _ & Hp0).
  assert (Hc : buffered_channel.consistent K c)
    by (apply buf_run_consistent, Hc0).
  assert (Ho : buffered_channel._open c = true)
    by (unfold c; rewrite (buf_run_open calls c0 K Hc0 Hno); exact Ho0).
  pose proof Hc as (Hsz & HN & Hrp & Hn & Hwp & Hm).
  split; [exact Ho|]. split.
  { unfold buffered_channel.is_writable. rewrite Ho, Hsz. simpl. apply Z.ltb_lt. }
  split.
  { intros v Hlt.
    destruct (buf_write_spec v c K Hc)
      as [(Ho' & _) | [(_ & Hfull & _) | (c' & _ & _ & _ & E & _ & Hp & _ & Hn')]];
      [congruence | lia |].
    rewrite E. unfold result, after. simpl. auto. }
  split.
  { intros v out Hfull. split; [apply (buf_write_full v c K); assumption|].
    destruct (buf_read_spec out c K Hc)
      as [(_ & Hz & _) | [(_ & Hz & _) | (x & c' & _ & _ & E & Hc' & _ & Ho' & Hn')]];
      [lia | lia |].
    rewrite E. unfold after. simpl.
    unfold buffered_channel.is_writable.
    destruct Hc' as (Hsz' & _). rewrite Ho', Ho, Hsz'. simpl. apply Z.ltb_lt. lia. }
  split.
  { intros vs v Hlen full.
    destruct (buf_run_writes vs c0 K Hc0 Ho0) as (Hw & Hpend & Hcount & Hopen); [lia|].
    split; [exact Hw|]. split; [fold full in Hpend; rewrite Hpend, Hp0; reflexivity|].
    apply (buf_write_full v full K);
      [apply buf_run_consistent, Hc0 | exact Hopen | fold full in Hcount; lia]. }
  split.
  { intros out Hpos.
    destruct (buf_read_spec out c K Hc)
      as [(_ & Hz & _) | [(_ & Hz & _) | (x & c' & _ & _ & E & _ & Hp & _)]];
      [lia | lia |].
    exists x, (buffered_channel.pending c'). rewrite E. auto. }
  split.
  { intros out Hz. apply buf_read_open_empty; assumption. }
  split.
  { unfold c. rewrite (buf_run_fifo calls c0 K Hc0), Hp0. reflexivity. }
  apply (buf_pending_length c K Hc).
Qed.

Lemma ring_buffer_fifo_and_capacity_witness :
  let c0 := buffered_channel.set_values [0; 0]
              {| buffered_channel._values := [];
                 buffered_channel._mutex := false;
                 buffered_channel._read_position := 0;
                 buffered_channel._write_position := 0;
                 buffered_channel._count := 0;
                 buffered_channel._open := true |} in
  let calls := [call_write 1; call_write 2; call_read 0; call_write 3] in
  values_read buffered_channel.perform calls c0
    ++ buffered_channel.pending (run buffered_channel.perform calls c0)
  = values_written buffered_channel.perform calls c0.
Proof.
  assert (HK : 0 <= 2 < size_t_modulus) by (unfold size_t_modulus; lia).
  pose proof (ring_buffer_fifo_and_capacity Z 0 example_limits 2 _
                [call_write 1; call_write 2; call_read 0; call_write 3]
                HK eq_refl eq_refl) as (_ & _ & _ & _ & _ & _ & _ & H & _).
  exact H.
Defined.

(** C5. For a buffered channel constructed with capacity [N] and any
    sequence of read, write and close calls (timed or not): the count stays
    within [0 .. N]; a call never takes [_open] from false to true, and the
    only call that takes it from true to false is close; once [_open] is
    false and the count is 0, every further call leaves the channel as it
    is, so the count stays 0 and every read returns [closed]. *)
Theorem buffered_count_and_open_invariants :
  forall (T : Type) (d : T) (lim : vector_limits) (N : Z) (c0 : buffered_channel.t T)
         (calls : list (call T)) (k : call T),
    0 <= N < size_t_modulus ->
    buffered_channel.buffered_channel d lim N = returned c0 ->
    let c := run buffered_channel.perform calls c0 in
    let c' := step buffered_channel.perform k c in
    0 <= buffered_channel._count c <= N /\
    (buffered_channel._open c = false -> buffered_channel._open c' = false) /\
    (buffered_channel._open c = true -> buffered_channel._open c' = false ->
       k = call_close) /\
    (buffered_channel._open c = false -> buffered_channel._count c = 0 ->
       forall (more : list (call T)) (out : T) (t : Z),
         let c'' := run buffered_channel.perform more c in
         c'' = c /\
         buffered_channel._count c'' = 0 /\
         buffered_channel._open c'' = false /\
         result (buffered_channel.read out c'') = returned (read_status.closed, out) /\
         result (buffered_channel.read_for out t c'') = returned (read_status.closed, out) /\
         result (buffered_channel.read_until out t c'') = returned (read_status.closed, out)).
Proof.
  intros T d lim N c0 calls k HN Hctor c c'.
  destruct (buf_constructed d lim N c0 Hctor HN) as (Hc0 & _).
  assert (Hc : buffered_channel.consistent N c)
    by (apply buf_run_consistent, Hc0).
  pose proof Hc as (Hsz & HN' & Hrp & Hn & Hwp & Hm).
  destruct (buf_step k c N Hc) as (_ & _ & Ho' & _). fold c' in Ho'.
  split; [exact Hn|]. split; [|split].
  - intros Ho. rewrite Ho', Ho. destruct (is_close k); reflexivity.
  - intros Ho Hcl. rewrite Ho', Ho in Hcl. destruct k; try discriminate. reflexivity.
  - intros Ho Hz more out t c''.
    assert (E : c'' = c) by (apply (buf_run_drained more c N); assumption).
    rewrite E. split; [reflexivity|]. split; [exact Hz|]. split; [exact Ho|].
    assert (Hr : buffered_channel.read_for out t c
                 = buffered_channel.read out c).
    { rewrite (buf_read_for out t c Hm). unfold buffered_channel.is_readable.
      rewrite Ho. reflexivity. }
    change (buffered_channel.read_until out t c)
      with (buffered_channel.read_for out t c).
    rewrite Hr, (buf_read_closed_empty out c Hm Ho Hz). auto.
Qed.

Lemma buffered_count_and_open_invariants_witness :
  let c0 := buffered_channel.set_values [0; 0]
              {| buffered_channel._values := [];
                 buffered_channel._mutex := false;
                 buffered_channel._read_position := 0;
                 buffered_channel._write_position := 0;
                 buffered_channel._count := 0;
                 buffered_channel._open := true |} in
  let c := run buffered_channel.perform
             [call_write 1; call_close; call_read 0] c0 in
  0 <= buffered_channel._count c <= 2.
Proof.
  assert (HN : 0 <= 2 < size_t_modulus) by (unfold size_t_modulus; lia).
  exact (proj1
    (buffered_count_and_open_invariants Z 0 example_limits 2 _
       [call_write 1; call_close; call_read 0] call_close HN eq_refl)).
Defined.

(** * Further properties *)

(** ** Single-slot channel: delivery *)

Section SingleSlotDelivery.
Context {T : Type}.
Implicit Types (c : channel.t T) (k : call T) (v out : T).

Import channel.

Lemma slot_step_fifo k c :
  _mutex c = false ->
  delivered (result (perform k c)) ++ slot_pending (step perform k c)
  = slot_pending c ++ accepted k (result (perform k c)).
Proof. intros Hm. destruct k; destruct c as [? [] []]; try discriminate; reflexivity. Qed.

Lemma slot_run_fifo calls c :
  _mutex c = false ->
  values_read perform calls c ++ slot_pending (run perform calls c)
  = slot_pending c ++ values_written perform calls c.
Proof.
  revert c. induction calls as [|k calls IH]; intros c Hm; simpl.
  - rewrite app_nil_r. reflexivity.
  - rewrite <- app_assoc, (IH _ (slot_step_idle k c Hm)), !app_assoc,
      (slot_step_fifo k c Hm). reflexivity.
Qed.

Lemma slot_pending_short c : (length (slot_pending c) <= 1)%nat.
Proof. destruct c as [? [] ?]; simpl; lia. Qed.

(** A call that brings the readers' or the writers' predicate from false to
    true notifies the condition variable they wait on. *)
Lemma slot_step_wakes k c :
  _mutex c = false ->
  (slot_readers_go c = false -> slot_readers_go (step perform k c) = true ->
   notified _readable (sent (perform k c)) = true) /\
  (slot_writers_go c = false -> slot_writers_go (step perform k c) = true ->
   notified _writable (sent (perform k c)) = true).
Proof.
  intros Hm. destruct k; destruct c as [? [] []]; try discriminate;
    split; intros H1 H2; try discriminate; reflexivity.
Qed.

Lemma slot_close_twice c :
  _mutex c = false ->
  close (after (close c)) =
  (returned tt, after (close c), [notify_all _writable; notify_all _readable]).
Proof. intros Hm. destruct c as [? [] []]; try discriminate; reflexivity. Qed.

Lemma slot_close_keeps c :
  _mutex c = false ->
  result (close c) = returned tt /\
  slot_pending (after (close c)) = slot_pending c /\
  _value (after (close c)) = _value c.
Proof. intros Hm. destruct c as [? [] []]; try discriminate; repeat split. Qed.

Lemma slot_read_not_timeout out c x :
  result (read out c) <> returned (read_status.timeout, x).
Proof. destruct c as [? [] []]; discriminate. Qed.

Lemma slot_write_returns_success v c s :
  result (write v c) = returned s -> s = write_status.success.
Proof. destruct c as [? [] []]; cbv; intros H; try discriminate; congruence. Qed.

End SingleSlotDelivery.

(** X1. Single-slot alternation: on every run from the constructor, the
    values the reads have delivered, followed by the value the slot still
    holds for a reader (at most one), are the values the writes have put
    in, in the order they were written. *)
Theorem single_slot_delivers_in_write_order :
  forall (T : Type) (init : T) (calls : list (call T)),
    let c0 := channel.channel init in
    let c := run channel.perform calls c0 in
    values_read channel.perform calls c0 ++ slot_pending c
    = values_written channel.perform calls c0 /\
    (length (slot_pending c) <= 1)%nat.
Proof.
  intros T init calls c0 c. split; [|apply slot_pending_short].
  apply (slot_run_fifo calls c0). reflexivity.
Qed.

(** X2. Strict alternation: after a write that returned [success], a second
    write parks and touches nothing until a read or a close is made, and
    the read that follows the first write hands out its value; after a read
    that returned [success], the next read delivers no value: it parks
    (the channel is writable again) or returns [closed] (the read drained
    a closing channel). *)
Theorem single_slot_strict_alternation :
  forall (T : Type) (c : channel.t T) (v v' out out' x : T),
    channel._mutex c = false ->
    (result (channel.write v c) = returned write_status.success ->
       let c1 := after (channel.write v c) in
       channel.write v' c1 = (waiting, c1, []) /\
       result (channel.read out c1) = returned (read_status.success, v)) /\
    (result (channel.read out c) = returned (read_status.success, x) ->
       let c1 := after (channel.read out c) in
       (channel._state c = channel.readable /\
        channel.read out' c1 = (waiting, c1, [])) \/
       (channel._state c = channel.closing /\
        channel.read out' c1 = (returned (read_status.closed, out'), c1, []))).
Proof.
  intros T c v v' out out' x Hm. split.
  - intros H. destruct c as [? [] []]; try discriminate. split; reflexivity.
  - intros H. destruct c as [? [] []]; try discriminate.
    + left. split; reflexivity.
    + right. split; reflexivity.
Qed.

Lemma single_slot_strict_alternation_witness :
  let c1 := after (channel.write 1 (channel.channel 0)) in
  channel.write 2 c1 = (waiting, c1, []) /\
  result (channel.read 0 c1) = returned (read_status.success, 1).
Proof.
  exact (proj1 (single_slot_strict_alternation Z (channel.channel 0)
                  1 2 0 0 0 eq_refl) eq_refl).
Defined.

(** X3. No lost wake-up on the single-slot channel: a call that makes the
    readers' predicate ([_state != writable]) true notifies [_readable],
    and a call that makes the writers' predicate ([_state != readable]) true
    notifies [_writable]. *)
Theorem single_slot_no_lost_wakeup :
  forall (T : Type) (c : channel.t T) (k : call T),
    channel._mutex c = false ->
    let r := channel.perform k c in
    (slot_readers_go c = false -> slot_readers_go (after r) = true ->
     notified _readable (sent r) = true) /\
    (slot_writers_go c = false -> slot_writers_go (after r) = true ->
     notified _writable (sent r) = true).
Proof. intros T c k Hm. apply (slot_step_wakes k c Hm). Qed.

Lemma single_slot_no_lost_wakeup_witness :
  notified _readable (sent (channel.perform (call_write 1) (channel.channel 0)))
  = true.
Proof.
  exact (proj1 (single_slot_no_lost_wakeup Z (channel.channel 0) (call_write 1)
                  eq_refl) eq_refl eq_refl).
Defined.

(** ** Buffered channel: what a call leaves behind *)

Section BufferedCalls.
Context {T : Type}.
Implicit Types (c : buffered_channel.t T) (k : call T) (v out : T).

Import buffered_channel.

(** A call leaves the channel as it is, or is a read that went through,
    a write that went through, or a close, with the notifications of
    each. *)
Lemma buf_perform_cases k c N :
  consistent N c ->
  result (perform k c) <> undefined /\
  (step perform k c = c /\ sent (perform k c) = []
   \/ step perform k c = c /\ sent (perform k c) = [notify_all _readable]
   \/ is_readable c = true /\ sent (perform k c) = [notify_one _writable]
   \/ is_writable c = true /\ sent (perform k c) = [notify_one _readable]
   \/ sent (perform k c) = [notify_all _writable; notify_all _readable]).
Proof.
  intros Hc. pose proof Hc as (_ & _ & _ & _ & _ & Hm).
  assert (Hread : forall out (m : M (t T) (read_status.t * T)),
             m c = read out c \/
             (is_readable c = false /\
              m c = (returned (read_status.timeout, out), c, [])) ->
             let r := bind m (fun r => ret (read_reply (fst r) (snd r))) c in
             result r <> undefined /\
             (after r = c /\ sent r = []
              \/ after r = c /\ sent r = [notify_all _readable]
              \/ is_readable c = true /\ sent r = [notify_one _writable]
              \/ is_writable c = true /\ sent r = [notify_one _readable]
              \/ sent r = [notify_all _writable; notify_all _readable])).
  { intros out m Hcase r. subst r. rewrite bind_ret_map.
    destruct Hcase as [E | [_ E]]; rewrite E.
    - destruct (buf_read_spec out c N Hc)
        as [(_ & _ & _ & E') | [(_ & _ & _ & E') | (x & c' & _ & Hr & E' & _)]];
        rewrite E'; unfold result, after, sent; simpl;
        (split; [discriminate|]); auto.
    - unfold result, after, sent; simpl. split; [discriminate | auto]. }
  assert (Hwrite : forall v (m : M (t T) write_status.t),
             m c = write v c \/
             (is_writable c = false /\
              m c = (returned write_status.timeout, c, [])) ->
             let r := bind m (fun r => ret (write_reply (T:=T) r)) c in
             result r <> undefined /\
             (after r = c /\ sent r = []
              \/ after r = c /\ sent r = [notify_all _readable]
              \/ is_readable c = true /\ sent r = [notify_one _writable]
              \/ is_writable c = true /\ sent r = [notify_one _readable]
              \/ sent r = [notify_all _writable; notify_all _readable])).
  { intros v m Hcase r. subst r. rewrite bind_ret_map.
    destruct Hcase as [E | [_ E]]; rewrite E.
    - destruct (buf_write_spec v c N Hc)
        as [(_ & _ & E') | [(_ & _ & _ & E') | (c' & _ & _ & Hw & E' & _)]];
        rewrite E'; unfold result, after, sent; simpl;
        (split; [discriminate|]); auto 6.
    - unfold result, after, sent; simpl. split; [discriminate | auto]. }
  unfold step.
  destruct k as [out|out d|out d|v|v d|v d|]; cbn [perform].
  - apply (Hread out). left; reflexivity.
  - apply (Hread out), buf_timed_read, buf_read_for, Hm.
  - apply (Hread out), buf_timed_read, buf_read_for, Hm.
  - apply (Hwrite v). left; reflexivity.
  - apply (Hwrite v), buf_timed_write, buf_write_for, Hm.
  - apply (Hwrite v), buf_timed_write, buf_write_for, Hm.
  - rewrite bind_ret_map, (buf_close c Hm). unfold result, after, sent; simpl.
    split; [discriminate | auto 6].
Qed.

Lemma buf_step_wakes k c N :
  consistent N c ->
  (is_readable c = false -> is_readable (step perform k c) = true ->
   notified _readable (sent (perform k c)) = true) /\
  (is_writable c = false -> is_writable (step perform k c) = true ->
   notified _writable (sent (perform k c)) = true).
Proof.
  intros Hc.
  destruct (buf_perform_cases k c N Hc)
    as (_ & [[E S] | [[E S] | [[P S] | [[P S] | S]]]]);
    rewrite ?E, S; split; intros H1 H2; try congruence; reflexivity.
Qed.

(** Reads of a channel that holds enough values all go through, open or
    closed, and hand out the pending values from the oldest on. *)
Lemma buf_run_reads (outs : list T) :
  forall c N,
    consistent N c ->
    Z.of_nat (length outs) <= _count c ->
    let c' := run perform (map call_read outs) c in
    values_read perform (map call_read outs) c = take (length outs) (pending c) /\
    pending c' = drop (length outs) (pending c) /\
    _count c' = _count c - Z.of_nat (length outs) /\
    _open c' = _open c /\
    consistent N c'.
Proof.
  induction outs as [|out outs IH]; intros c N Hc Hlen; simpl.
  - split; [reflexivity|]. split; [reflexivity|]. split; [lia|].
    split; [reflexivity | exact Hc].
  - simpl in Hlen.
    destruct (buf_read_spec out c N Hc)
      as [(_ & Hz & _) | [(_ & Hz & _) | (x & c1 & Hpos & _ & E & Hc1 & Hp & Ho & Hn)]];
      [lia | lia |].
    unfold step. cbn [perform]. rewrite bind_ret_map, E.
    unfold result, after, sent; simpl.
    destruct (IH c1 N Hc1) as (Hr & Hpend & Hcount & Hopen & Hc'); [lia|].
    rewrite Hr, Hpend, Hcount, Hopen, Hp, Hn, Ho. simpl.
    split; [reflexivity|]. split; [reflexivity|]. split; [lia|].
    split; [reflexivity | exact Hc'].
Qed.

Lemma buf_close_twice c :
  _mutex c = false ->
  close (after (close c)) =
  (returned tt, after (close c), [notify_all _writable; notify_all _readable]).
Proof.
  intros Hm. rewrite (buf_close c Hm). unfold after; simpl.
  rewrite buf_close by (destruct c; exact Hm).
  destruct c; reflexivity.
Qed.

Lemma buf_write_returns_success v c s :
  result (write v c) = returned s -> s = write_status.success.
Proof.
  destruct c as [vs m rp wp n o].
  unfold write, unique_lock, wait, cv_wait, write_channel, assign_subscript,
    unlock, bind, get, modify, notify, ret, throw, park, is_writable, size,
    result; simpl.
  destruct m; simpl; [discriminate|].
  destruct (negb o || (n <? Z.of_nat (length vs))); simpl; [|discriminate].
  destruct o; simpl; [|discriminate].
  destruct (wp <? Z.of_nat (length vs)); simpl; [congruence | discriminate].
Qed.

End BufferedCalls.

(** ** Runs made of two parts *)

Section RunsOfTwoParts.
Context {St T : Type}.
Variable perform : call T -> M St (reply T).

Lemma run_app (a b : list (call T)) (s : St) :
  run perform (a ++ b) s = run perform b (run perform a s).
Proof. unfold run. apply fold_left_app. Qed.

Lemma values_read_app (a b : list (call T)) :
  forall s,
    values_read perform (a ++ b) s
    = values_read perform a s ++ values_read perform b (run perform a s).
Proof.
  induction a as [|k a IH]; intros s; simpl; [reflexivity|].
  rewrite IH, app_assoc. reflexivity.
Qed.

Lemma values_written_app (a b : list (call T)) :
  forall s,
    values_written perform (a ++ b) s
    = values_written perform a s ++ values_written perform b (run perform a s).
Proof.
  induction a as [|k a IH]; intros s; simpl; [reflexivity|].
  rewrite IH, app_assoc. reflexivity.
Qed.

Lemma values_written_reads (outs : list T) :
  forall s, values_written perform (map call_read outs) s = [].
Proof.
  induction outs as [|out outs IH]; intros s; simpl; [reflexivity|].
  rewrite IH. reflexivity.
Qed.

End RunsOfTwoParts.

Lemma buf_values_read_writes {T : Type} (vs : list T) :
  forall c : buffered_channel.t T,
    values_read buffered_channel.perform (map call_write vs) c = [].
Proof.
  induction vs as [|v vs IH]; intros c; simpl; [reflexivity|].
  rewrite IH. cbn [buffered_channel.perform]. rewrite bind_ret_map.
  unfold result; simpl.
  destruct (fst (fst (buffered_channel.write v c))); reflexivity.
Qed.

(** ** Both channels *)

(** X4. End of stream: on every run from the constructor of either channel,
    when a read returns [closed], every value that was written has been
    delivered to a reader, in the order written. *)
Theorem closed_read_means_all_delivered :
  forall (T : Type) (init d : T) (lim : vector_limits) (N : Z) (b0 : buffered_channel.t T)
         (calls_c calls_b : list (call T)) (out x : T),
    0 <= N < size_t_modulus ->
    buffered_channel.buffered_channel d lim N = returned b0 ->
    let c0 := channel.channel init in
    (result (channel.read out (run channel.perform calls_c c0))
       = returned (read_status.closed, x) ->
     values_read channel.perform calls_c c0
     = values_written channel.perform calls_c c0) /\
    (result (buffered_channel.read out (run buffered_channel.perform calls_b b0))
       = returned (read_status.closed, x) ->
     values_read buffered_channel.perform calls_b b0
     = values_written buffered_channel.perform calls_b b0).
Proof.
  intros T init d lim N b0 calls_c calls_b out x HN Hctor c0. split.
  - intros H. destruct (slot_read_closed_inv _ _ _ H) as (Hs & _).
    pose proof (slot_run_fifo calls_c c0 eq_refl) as E.
    unfold slot_pending in E. rewrite Hs in E. simpl in E.
    rewrite app_nil_r in E. exact E.
  - intros H. destruct (buf_read_closed_inv _ _ _ H) as (_ & _ & Hz & _).
    destruct (buf_constructed d lim N b0 Hctor HN) as (Hc0 & _ & _ & _ & _ & Hp0).
    pose proof (buf_run_fifo calls_b b0 N Hc0) as E.
    pose proof (buf_pending_length _ N (buf_run_consistent calls_b b0 N Hc0)) as Hl.
    rewrite Hz in Hl.
    destruct (buffered_channel.pending (run buffered_channel.perform calls_b b0));
      [|simpl in Hl; lia].
    rewrite Hp0, app_nil_r in E. exact E.
Qed.

Lemma closed_read_means_all_delivered_witness :
  let calls := [call_write 1; call_write 2; call_close; call_read 0; call_read 0] in
  let b0 := buffered_channel.set_values [0; 0]
              {| buffered_channel._values := [];
                 buffered_channel._mutex := false;
                 buffered_channel._read_position := 0;
                 buffered_channel._write_position := 0;
                 buffered_channel._count := 0;
                 buffered_channel._open := true |} in
  values_read buffered_channel.perform calls b0
  = values_written buffered_channel.perform calls b0.
Proof.
  assert (HN : 0 <= 2 < size_t_modulus) by (unfold size_t_modulus; lia).
  exact (proj2 (closed_read_means_all_delivered Z 0 0 example_limits 2 _ []
                  [call_write 1; call_write 2; call_close; call_read 0; call_read 0]
                  0 0 HN eq_refl) eq_refl).
Defined.

(** X5. No call keeps the mutex: on every run from the constructor of
    either channel the mutex is free after every call, whether the call
    returned, threw [illegal_write] or parked in its wait. *)
Theorem every_call_releases_the_mutex :
  forall (T : Type) (init d : T) (lim : vector_limits) (N : Z) (b0 : buffered_channel.t T)
         (calls_c calls_b : list (call T)) (k : call T),
    0 <= N < size_t_modulus ->
    buffered_channel.buffered_channel d lim N = returned b0 ->
    channel._mutex
      (step channel.perform k (run channel.perform calls_c (channel.channel init)))
    = false /\
    buffered_channel._mutex
      (step buffered_channel.perform k (run buffered_channel.perform calls_b b0))
    = false.
Proof.
  intros T init d lim N b0 calls_c calls_b k HN Hctor. split.
  - apply slot_step_idle, slot_run_idle. reflexivity.
  - destruct (buf_constructed d lim N b0 Hctor HN) as (Hc0 & _).
    destruct (buf_step k _ N (buf_run_consistent calls_b b0 N Hc0)) as (Hc & _).
    apply Hc.
Qed.

Lemma every_call_releases_the_mutex_witness :
  channel._mutex
    (step channel.perform (call_write 2)
       (run channel.perform [call_write 1; call_close] (channel.channel 0)))
  = false.
Proof.
  assert (HN : 0 <= 2 < size_t_modulus) by (unfold size_t_modulus; lia).
  exact (proj1 (every_call_releases_the_mutex Z 0 0 example_limits 2 _
                  [call_write 1; call_close] [] (call_write 2) HN eq_refl)).
Defined.

(** X6. The buffered channel never leaves its storage: on every run from
    the constructor the storage keeps its [N] elements, both cursors stay
    below [N], the write cursor is [_count] places ahead of the read cursor
    (modulo [N]), and no call subscripts [_values] out of range. *)
Theorem buffered_subscripts_stay_in_range :
  forall (T : Type) (d : T) (lim : vector_limits) (N : Z) (c0 : buffered_channel.t T)
         (calls : list (call T)) (k : call T),
    0 <= N < size_t_modulus ->
    buffered_channel.buffered_channel d lim N = returned c0 ->
    let c := run buffered_channel.perform calls c0 in
    buffered_channel.size c = N /\
    0 <= buffered_channel._read_position c < N /\
    0 <= buffered_channel._write_position c < N /\
    buffered_channel._write_position c
    = (buffered_channel._read_position c + buffered_channel._count c) mod N /\
    result (buffered_channel.perform k c) <> undefined.
Proof.
  intros T d lim N c0 calls k HN Hctor c.
  destruct (buf_constructed d lim N c0 Hctor HN) as (Hc0 & _).
  pose proof (buf_run_consistent calls c0 N Hc0) as Hc. fold c in Hc.
  pose proof Hc as (Hsz & HN' & Hrp & Hn & Hwp & Hm).
  split; [exact Hsz|]. split; [exact Hrp|]. split.
  { rewrite Hwp. apply Z.mod_pos_bound. lia. }
  split; [exact Hwp|].
  apply (buf_perform_cases k c N Hc).
Qed.

Lemma buffered_subscripts_stay_in_range_witness :
  let b0 := buffered_channel.set_values [0; 0]
              {| buffered_channel._values := [];
                 buffered_channel._mutex := false;
                 buffered_channel._read_position := 0;
                 buffered_channel._write_position := 0;
                 buffered_channel._count := 0;
                 buffered_channel._open := true |} in
  let c := run buffered_channel.perform
             [call_write 1; call_write 2; call_read 0; call_write 3] b0 in
  0 <= buffered_channel._write_position c < 2.
Proof.
  assert (HN : 0 <= 2 < size_t_modulus) by (unfold size_t_modulus; lia).
  pose proof (buffered_subscripts_stay_in_range Z 0 example_limits 2 _
                [call_write 1; call_write 2; call_read 0; call_write 3]
                (call_read 0) HN eq_refl) as (_ & _ & H & _).
  exact H.
Defined.

(** X7. Close is idempotent and loses nothing: on either channel a close
    returns and keeps the values a reader can still get, and a second close
    (the destructor after an explicit close) returns with the channel as
    the first close left it. *)
Theorem close_is_idempotent_and_keeps_values :
  forall (T : Type) (c : channel.t T) (b : buffered_channel.t T),
    channel._mutex c = false ->
    buffered_channel._mutex b = false ->
    (result (channel.close c) = returned tt /\
     slot_pending (after (channel.close c)) = slot_pending c /\
     after (channel.close (after (channel.close c))) = after (channel.close c) /\
     result (channel.close (after (channel.close c))) = returned tt) /\
    (result (buffered_channel.close b) = returned tt /\
     buffered_channel.pending (after (buffered_channel.close b))
     = buffered_channel.pending b /\
     buffered_channel._open (after (buffered_channel.close b)) = false /\
     after (buffered_channel.close (after (buffered_channel.close b)))
     = after (buffered_channel.close b) /\
     result (buffered_channel.close (after (buffered_channel.close b)))
     = returned tt).
Proof.
  intros T c b Hm Hmb. split.
  - destruct (slot_close_keeps c Hm) as (H1 & H2 & _).
    rewrite (slot_close_twice c Hm). auto.
  - rewrite (buf_close_twice b Hmb), (buf_close b Hmb). repeat split.
Qed.

Lemma close_is_idempotent_and_keeps_values_witness :
  let c := after (channel.write 1 (channel.channel 0)) in
  slot_pending (after (channel.close c)) = slot_pending c /\
  after (channel.close (after (channel.close c))) = after (channel.close c).
Proof.
  pose proof (close_is_idempotent_and_keeps_values Z
    (after (channel.write 1 (channel.channel 0)))
    {| buffered_channel._values := [4; 0; 0];
       buffered_channel._mutex := false;
       buffered_channel._read_position := 0;
       buffered_channel._write_position := 1;
       buffered_channel._count := 1;
       buffered_channel._open := true |}
    eq_refl eq_refl) as ((_ & H1 & H2 & _) & _).
  split; [exact H1 | exact H2].
Defined.

(** X8. No lost wake-up on the buffered channel: on every run from the
    constructor, a call that makes [is_readable] true notifies [_readable]
    and a call that makes [is_writable] true notifies [_writable]. *)
Theorem buffered_no_lost_wakeup :
  forall (T : Type) (d : T) (lim : vector_limits) (N : Z) (c0 : buffered_channel.t T)
         (calls : list (call T)) (k : call T),
    0 <= N < size_t_modulus ->
    buffered_channel.buffered_channel d lim N = returned c0 ->
    let c := run buffered_channel.perform calls c0 in
    let r := buffered_channel.perform k c in
    (buffered_channel.is_readable c = false ->
     buffered_channel.is_readable (after r) = true ->
     notified _readable (sent r) = true) /\
    (buffered_channel.is_writable c = false ->
     buffered_channel.is_writable (after r) = true ->
     notified _writable (sent r) = true).
Proof.
  intros T d lim N c0 calls k HN Hctor c r.
  destruct (buf_constructed d lim N c0 Hctor HN) as (Hc0 & _).
  apply (buf_step_wakes k c N), buf_run_consistent, Hc0.
Qed.

Lemma buffered_no_lost_wakeup_witness :
  let b0 := buffered_channel.set_values [0; 0]
              {| buffered_channel._values := [];
                 buffered_channel._mutex := false;
                 buffered_channel._read_position := 0;
                 buffered_channel._write_position := 0;
                 buffered_channel._count := 0;
                 buffered_channel._open := true |} in
  notified _writable
    (sent (buffered_channel.perform (call_read 0)
             (run buffered_channel.perform [call_write 1; call_write 2] b0)))
  = true.
Proof.
  assert (HN : 0 <= 2 < size_t_modulus) by (unfold size_t_modulus; lia).
  exact (proj2 (buffered_no_lost_wakeup Z 0 example_limits 2 _ [call_write 1; call_write 2]
                  (call_read 0) HN eq_refl) eq_refl eq_refl).
Defined.

(** X9. The status vocabulary: on either channel, in any state, an untimed
    read never returns [timeout], and an untimed write that returns returns
    [success]; [timeout] comes from the timed calls only. *)
Theorem untimed_calls_never_time_out :
  forall (T : Type) (c : channel.t T) (b : buffered_channel.t T) (v out x : T)
         (s : write_status.t),
    result (channel.read out c) <> returned (read_status.timeout, x) /\
    (result (channel.write v c) = returned s -> s = write_status.success) /\
    result (buffered_channel.read out b) <> returned (read_status.timeout, x) /\
    (result (buffered_channel.write v b) = returned s -> s = write_status.success).
Proof.
  intros T c b v out x s. split; [apply slot_read_not_timeout|].
  split; [apply slot_write_returns_success|].
  split; [apply buf_read_not_timeout | apply buf_write_returns_success].
Qed.

(** X10. A timed call whose predicate holds is the untimed call: when the
    wait has nothing to wait for, [read_for] and [read_until] do what
    [read] does and [write_for] and [write_until] what [write] does (the
    same outcome, fields and notifications), on either channel. *)
Theorem timed_call_that_need_not_wait_is_the_untimed_call :
  forall (T : Type) (c : channel.t T) (b : buffered_channel.t T)
         (v out : T) (d : Z),
    channel._mutex c = false ->
    buffered_channel._mutex b = false ->
    (slot_readers_go c = true ->
       channel.read_for out d c = channel.read out c /\
       channel.read_until out d c = channel.read out c) /\
    (slot_writers_go c = true ->
       channel.write_for v d c = channel.write v c /\
       channel.write_until v d c = channel.write v c) /\
    (buffered_channel.is_readable b = true ->
       buffered_channel.read_for out d b = buffered_channel.read out b /\
       buffered_channel.read_until out d b = buffered_channel.read out b) /\
    (buffered_channel.is_writable b = true ->
       buffered_channel.write_for v d b = buffered_channel.write v b /\
       buffered_channel.write_until v d b = buffered_channel.write v b).
Proof.
  intros T c b v out d Hm Hmb.
  repeat match goal with |- _ /\ _ => split end.
  - intros H. destruct c as [? [] []]; try discriminate; split; reflexivity.
  - intros H. destruct c as [? [] []]; try discriminate; split; reflexivity.
  - intros H.
    assert (E : buffered_channel.read_for out d b = buffered_channel.read out b)
      by (rewrite (buf_read_for out d b Hmb), H; reflexivity).
    split; exact E.
  - intros H.
    assert (E : buffered_channel.write_for v d b = buffered_channel.write v b)
      by (rewrite (buf_write_for v d b Hmb), H; reflexivity).
    split; exact E.
Qed.

Lemma timed_call_that_need_not_wait_is_the_untimed_call_witness :
  let c := after (channel.write 1 (channel.channel 0)) in
  channel.read_for 0 50 c = channel.read 0 c.
Proof.
  pose proof (timed_call_that_need_not_wait_is_the_untimed_call Z
    (after (channel.write 1 (channel.channel 0)))
    {| buffered_channel._values := [4; 0; 0];
       buffered_channel._mutex := false;
       buffered_channel._read_position := 0;
       buffered_channel._write_position := 1;
       buffered_channel._count := 1;
       buffered_channel._open := true |}
    2 0 50 eq_refl eq_refl) as (H & _).
  exact (proj1 (H eq_refl)).
Defined.

(** ** Buffered channel: draining and round trips *)

(** X11. Drain after close: closing a buffered channel that still holds
    values keeps them; as many reads as there are values then return them
    oldest first, the channel is left closed and empty, and the read after
    those returns [closed]. *)
Theorem buffered_drain_after_close :
  forall (T : Type) (d : T) (lim : vector_limits) (N : Z) (c0 : buffered_channel.t T)
         (calls : list (call T)) (outs : list T) (out : T),
    0 <= N < size_t_modulus ->
    buffered_channel.buffered_channel d lim N = returned c0 ->
    let c := run buffered_channel.perform calls c0 in
    let shut := after (buffered_channel.close c) in
    Z.of_nat (length outs) = buffered_channel._count c ->
    let drained := run buffered_channel.perform (map call_read outs) shut in
    buffered_channel.pending shut = buffered_channel.pending c /\
    values_read buffered_channel.perform (map call_read outs) shut
    = buffered_channel.pending c /\
    buffered_channel._count drained = 0 /\
    buffered_channel._open drained = false /\
    buffered_channel.read out drained
    = (returned (read_status.closed, out), drained, [notify_all _readable]).
Proof.
  intros T d lim N c0 calls outs out HN Hctor c shut Hlen drained.
  destruct (buf_constructed d lim N c0 Hctor HN) as (Hc0 & _).
  pose proof (buf_run_consistent calls c0 N Hc0) as Hc. fold c in Hc.
  destruct (buf_step_close c N Hc) as (Hcl & Hp & _ & Ho & _).
  cbn [buffered_channel.perform] in Hcl, Hp, Ho.
  rewrite bind_ret_map in Hcl, Hp, Ho. unfold after in Hcl, Hp, Ho.
  simpl in Hcl, Hp, Ho. fold (after (buffered_channel.close c)) in Hcl, Hp, Ho.
  fold shut in Hcl, Hp, Ho.
  assert (Hn : buffered_channel._count shut = buffered_channel._count c).
  { unfold shut. pose proof Hc as (_ & _ & _ & _ & _ & Hm).
    rewrite (buf_close c Hm). reflexivity. }
  destruct (buf_run_reads outs shut N Hcl) as (Hr & _ & Hcount & Hopen & Hd);
    [lia|].
  fold drained in Hcount, Hopen, Hd.
  pose proof (buf_pending_length shut N Hcl) as Hl.
  split; [exact Hp|]. split.
  { rewrite Hr, take_ge, Hp; [reflexivity | lia]. }
  assert (Hz : buffered_channel._count drained = 0) by lia.
  assert (Hod : buffered_channel._open drained = false) by congruence.
  split; [exact Hz|]. split; [exact Hod|].
  apply buf_read_closed_empty; [apply Hd | exact Hod | exact Hz].
Qed.

Lemma buffered_drain_after_close_witness :
  let b0 := buffered_channel.set_values [0; 0; 0]
              {| buffered_channel._values := [];
                 buffered_channel._mutex := false;
                 buffered_channel._read_position := 0;
                 buffered_channel._write_position := 0;
                 buffered_channel._count := 0;
                 buffered_channel._open := true |} in
  let c := run buffered_channel.perform
             [call_write 1; call_write 2; call_read 0; call_write 3] b0 in
  values_read buffered_channel.perform [call_read 0; call_read 0]
    (after (buffered_channel.close c))
  = buffered_channel.pending c.
Proof.
  assert (HN : 0 <= 3 < size_t_modulus) by (unfold size_t_modulus; lia).
  pose proof (buffered_drain_after_close Z 0 example_limits 3 _
                [call_write 1; call_write 2; call_read 0; call_write 3]
                [0; 0] 0 HN eq_refl eq_refl) as (_ & H & _).
  exact H.
Defined.

(** X12. Round trip through a fresh buffered channel: writing at most [N]
    values into a channel of capacity [N] and then making as many reads
    hands the values back in the order written; every one of these calls
    goes through without parking, and the channel is open and empty again. *)
Theorem buffered_write_read_round_trip :
  forall (T : Type) (d : T) (lim : vector_limits) (N : Z) (c0 : buffered_channel.t T)
         (vs outs : list T),
    0 <= N < size_t_modulus ->
    buffered_channel.buffered_channel d lim N = returned c0 ->
    Z.of_nat (length vs) <= N ->
    length outs = length vs ->
    let calls := map call_write vs ++ map call_read outs in
    let c := run buffered_channel.perform calls c0 in
    values_written buffered_channel.perform calls c0 = vs /\
    values_read buffered_channel.perform calls c0 = vs /\
    buffered_channel.pending c = [] /\
    buffered_channel._count c = 0 /\
    buffered_channel._open c = true.
Proof.
  intros T d lim N c0 vs outs HN Hctor Hroom Hlen calls c.
  destruct (buf_constructed d lim N c0 Hctor HN) as (Hc0 & Ho0 & Hz0 & _ & _ & Hp0).
  destruct (buf_run_writes vs c0 N Hc0 Ho0) as (Hw & Hpend & Hcount & Hopen);
    [lia|].
  pose proof (buf_run_consistent (map call_write vs) c0 N Hc0) as Hc1.
  destruct (buf_run_reads outs _ N Hc1) as (Hr & Hpend' & Hcount' & Hopen' & _);
    [lia|].
  unfold c, calls.
  rewrite values_written_app, values_read_app, run_app.
  rewrite Hw, values_written_reads, buf_values_read_writes, app_nil_r.
  rewrite Hr, Hpend', Hcount', Hopen', Hpend, Hp0, Hcount, Hopen. simpl.
  rewrite Hlen, take_ge, drop_ge by lia.
  repeat split. lia.
Qed.

Lemma buffered_write_read_round_trip_witness :
  let b0 := buffered_channel.set_values [0; 0; 0]
              {| buffered_channel._values := [];
                 buffered_channel._mutex := false;
                 buffered_channel._read_position := 0;
                 buffered_channel._write_position := 0;
                 buffered_channel._count := 0;
                 buffered_channel._open := true |} in
  values_read buffered_channel.perform
    (map call_write [7; 8; 9] ++ map call_read [0; 0; 0]) b0
  = [7; 8; 9].
Proof.
  assert (HN : 0 <= 3 < size_t_modulus) by (unfold size_t_modulus; lia).
  assert (Hroom : Z.of_nat (length [7; 8; 9]) <= 3) by (simpl; lia).
  pose proof (buffered_write_read_round_trip Z 0 example_limits 3 _ [7; 8; 9] [0; 0; 0]
                HN eq_refl Hroom eq_refl) as (_ & H & _).
  exact H.
Defined.

(** ** The thread pool *)

Section ThreadPool.
Context {task : Type}.
Implicit Types (p : threadpool.t task) (q : buffered_channel.t task)
         (work : task).

Import threadpool.

(** The worker loop runs what is pending, oldest first; then it returns
    when the queue is closed and is parked in its read when the queue is
    open. *)
Lemma worker_runs_pending (fuel : nat) :
  forall work q N,
    buffered_channel.consistent N q ->
    (Z.to_nat (buffered_channel._count q) < fuel)%nat ->
    exists q',
      worker fuel work q
      = Some (if buffered_channel._open q then waiting else returned tt,
              q', buffered_channel.pending q) /\
      buffered_channel.consistent N q' /\
      buffered_channel._count q' = 0 /\
      buffered_channel._open q' = buffered_channel._open q.
Proof.
  induction fuel as [|fuel IH]; intros work q N Hq Hfuel; [lia|].
  cbn [worker].
  destruct (buf_read_spec work q N Hq)
    as [(Ho & Hz & _ & E) | [(Ho & Hz & _ & E)
       | (x & q1 & Hpos & _ & E & Hq1 & Hp & Ho & Hn)]]; rewrite E.
  - exists q. rewrite Ho. unfold buffered_channel.pending. rewrite Hz. auto.
  - exists q. rewrite Ho. unfold buffered_channel.pending. rewrite Hz. auto.
  - destruct (IH x q1 N Hq1) as (q' & Hw & Hq' & Hz' & Ho'); [lia|].
    exists q'. rewrite Hw, Hp, Ho. split; [reflexivity|].
    split; [exact Hq'|]. split; [exact Hz' | congruence].
Qed.

End ThreadPool.

(** X13. The worker loop of the thread pool: started on the queue as any
    run from its constructor has left it, with enough fuel for one read
    more than there are tasks in the queue, the loop runs exactly the
    queued tasks, oldest first, and leaves the queue empty; it then returns
    if the queue is closed and is parked in [read] if the queue is open. It
    never ends in an exception. *)
Theorem worker_runs_the_queued_tasks_in_order :
  forall (task : Type) (d work : task) (lim : vector_limits) (N : Z) (q0 : buffered_channel.t task)
         (calls : list (call task)) (fuel : nat),
    0 <= N < size_t_modulus ->
    buffered_channel.buffered_channel d lim N = returned q0 ->
    let q := run buffered_channel.perform calls q0 in
    (Z.to_nat (buffered_channel._count q) < fuel)%nat ->
    exists q',
      threadpool.worker fuel work q
      = Some (if buffered_channel._open q then waiting else returned tt,
              q', buffered_channel.pending q) /\
      buffered_channel._count q' = 0 /\
      buffered_channel._open q' = buffered_channel._open q.
Proof.
  intros task d work lim N q0 calls fuel HN Hctor q Hfuel.
  destruct (buf_constructed d lim N q0 Hctor HN) as (Hq0 & _).
  destruct (worker_runs_pending fuel work q N) as (q' & Hw & _ & Hz & Ho);
    [apply buf_run_consistent, Hq0 | exact Hfuel |].
  exists q'. auto.
Qed.

Lemma worker_runs_the_queued_tasks_in_order_witness :
  let q0 := buffered_channel.set_values [0; 0]
              {| buffered_channel._values := [];
                 buffered_channel._mutex := false;
                 buffered_channel._read_position := 0;
                 buffered_channel._write_position := 0;
                 buffered_channel._count := 0;
                 buffered_channel._open := true |} in
  let q := run buffered_channel.perform
             [call_write 5; call_write 6; call_close] q0 in
  exists q',
    threadpool.worker 3 0 q = Some (returned tt, q', [5; 6]) /\
    buffered_channel._count q' = 0 /\
    buffered_channel._open q' = false.
Proof.
  assert (HN : 0 <= 2 < size_t_modulus) by (unfold size_t_modulus; lia).
  assert (Hfuel : (Z.to_nat 2 < 3)%nat) by lia.
  exact (worker_runs_the_queued_tasks_in_order Z 0 0 example_limits 2 _
           [call_write 5; call_write 6; call_close] 3 HN eq_refl Hfuel).
Defined.


(** ** The thread pool: threads, joins and runs *)

Section ThreadPoolRuns.
Context {task : Type}.
Implicit Types (p : threadpool.t task) (q : buffered_channel.t task)
         (work : task) (a : threadpool.action task).

Import threadpool.

Lemma set_queue_same p : set_queue (_queue p) p = p.
Proof. destruct p; reflexivity. Qed.

Lemma settled_refl p : settled p p.
Proof. repeat split; auto. Qed.

Lemma settled_trans p1 p2 p3 : settled p1 p2 -> settled p2 p3 -> settled p1 p3.
Proof.
  intros (Hq & Ha & Hl & Hw) (Hq' & Ha' & Hl' & Hw').
  split; [congruence|]. split; [congruence|]. split; [congruence|].
  intros k. destruct (Hw k) as [E | [E1 E2]], (Hw' k) as [E' | [E1' E2']].
  - left. congruence.
  - right. split; congruence.
  - right. split; congruence.
  - congruence.
Qed.

Lemma pool_ok_settled N p p' : pool_ok N p -> settled p p' -> pool_ok N p'.
Proof.
  intros (Hq & Hw) (Eq & Ea & _ & Ew). unfold pool_ok. rewrite Eq.
  split; [exact Hq|].
  intros i th Hi Hth. destruct (Ew i) as [E | [E _]].
  - apply (Hw i th); [congruence | exact Hth].
  - apply (Hw i finished); [exact E | auto].
Qed.

(** What a join comes to. *)
Lemma join_cases i p :
  (exists work, _workers p !! i = Some (running work) /\
                join i p = (waiting, p, []))
  \/ (_workers p !! i = Some finished /\
      join i p = (returned tt, set_worker i joined p, []))
  \/ (_workers p !! i = Some joined /\
      join i p = (thrown system_error, p, []))
  \/ (_workers p !! i = None /\ join i p = (returned tt, p, [])).
Proof.
  unfold join, bind, get.
  destruct (_workers p !! i) as [[work| |]|] eqn:E; simpl.
  - left. exists work. auto.
  - right; left. auto.
  - right; right; left. auto.
  - right; right; right. auto.
Qed.

Lemma join_settled i p : settled p (after (join i p)).
Proof.
  destruct (join_cases i p)
    as [(work & _ & E) | [(Hi & E) | [(_ & E) | (_ & E)]]];
    rewrite E; unfold after; simpl; try apply settled_refl.
  unfold settled, set_worker; simpl.
  rewrite length_insert. repeat split.
  intros k. destruct (Nat.eq_dec i k) as [<-|Hne].
  - right. split; [exact Hi|].
    apply list_lookup_insert_eq, lookup_lt_is_Some_1. eauto.
  - left. apply list_lookup_insert_ne, Hne.
Qed.

Lemma join_all_settled n : forall i p, settled p (after (join_all i n p)).
Proof.
  induction n as [|n IH]; intros i p; [apply settled_refl|].
  cbn [join_all]. unfold bind.
  pose proof (join_settled i p) as Hs. unfold after in Hs.
  destruct (join i p) as [[[[]|e| |] p1] sg]; simpl in Hs |- *; try exact Hs.
  pose proof (IH (S i) p1) as Hs'. unfold after in Hs'.
  destruct (join_all (S i) n p1) as [[o p2] sg']. simpl in Hs' |- *.
  exact (settled_trans _ _ _ Hs Hs').
Qed.

(** The loop of joins returns only when every thread it gets to had
    finished its loop, and has then joined them all. *)
Lemma join_all_returned n :
  forall i p,
    result (join_all i n p) = returned tt ->
    forall k, (i <= k < i + n)%nat -> (k < length (_workers p))%nat ->
              _workers p !! k = Some finished /\
              _workers (after (join_all i n p)) !! k = Some joined.
Proof.
  induction n as [|n IH]; intros i p Hr k Hk Hlen; [lia|].
  cbn [join_all] in Hr |- *. unfold bind, result, after in Hr |- *.
  pose proof (join_settled i p) as Hs. unfold after in Hs.
  destruct (join_cases i p)
    as [(work & _ & E) | [(Hi & E) | [(_ & E) | (Hi & E)]]];
    rewrite E in Hr, Hs |- *; simpl in Hr, Hs |- *; try discriminate.
  - pose proof (IH (S i) (set_worker i joined p)) as IH'.
    pose proof (join_all_settled n (S i) (set_worker i joined p)) as Hs'.
    unfold result, after in IH', Hs'.
    destruct (join_all (S i) n (set_worker i joined p)) as [[o p2] sg'].
    simpl in Hr, IH', Hs' |- *.
    destruct (Nat.eq_dec i k) as [<-|Hne].
    + split; [exact Hi|].
      destruct Hs' as (_ & _ & _ & Hw). destruct (Hw i) as [E' | [E' _]].
      * rewrite E'. unfold set_worker; simpl.
        apply list_lookup_insert_eq. lia.
      * unfold set_worker in E'; simpl in E'.
        rewrite list_lookup_insert_eq in E' by lia. discriminate.
    + destruct (IH' Hr k) as (H1 & H2); [lia | |].
      { unfold set_worker; simpl. rewrite length_insert. exact Hlen. }
      unfold set_worker in H1; simpl in H1.
      rewrite list_lookup_insert_ne in H1 by exact Hne. auto.
  - apply lookup_ge_None in Hi.
    destruct (Nat.eq_dec i k) as [<-|Hne]; [lia|].
    pose proof (IH (S i) p) as IH'. unfold result, after in IH'.
    destruct (join_all (S i) n p) as [[o p2] sg']. simpl in Hr, IH' |- *.
    apply (IH' Hr k); lia.
Qed.

(** [shutdown], with the mutex of the queue free: the flag, the close,
    then the loop of joins on what these two have left. *)
Lemma shutdown_eq p :
  buffered_channel._mutex (_queue p) = false ->
  let p1 := set_queue (buffered_channel.set_open false (_queue p))
              (set_active false p) in
  let r := join_all 0 (length (_workers p)) p1 in
  shutdown p =
  (result r, after r, [notify_all _writable; notify_all _readable] ++ sent r).
Proof.
  intros Hm p1 r. unfold shutdown, bind, modify, on_queue, get. simpl.
  rewrite (buf_close (_queue p) Hm). simpl. fold p1. subst r.
  destruct (join_all 0 (length (_workers p)) p1) as [[o p2] sg]. reflexivity.
Qed.

Lemma pool_ok_closed N p b :
  pool_ok N p ->
  pool_ok N (set_queue (buffered_channel.set_open false (_queue p))
               (set_active b p)).
Proof.
  intros (Hq & Hw). unfold pool_ok; simpl.
  split; [exact Hq|].
  intros i th Hi Hth. split; [reflexivity|]. apply (Hw i th Hi Hth).
Qed.

(** One step of a run. *)
Lemma pool_step_ok N a p :
  pool_ok N p ->
  pool_ok N (pool_step a p) /\
  length (_workers (pool_step a p)) = length (_workers p) /\
  taken a p ++ buffered_channel.pending (_queue (pool_step a p))
  = buffered_channel.pending (_queue p) ++ queued a p.
Proof.
  intros Hok. pose proof Hok as (Hq & Hw).
  pose proof Hq as (_ & _ & _ & _ & _ & Hm).
  unfold pool_step. destruct a as [work|i| | |i|]; cbn [act taken queued].
  - (* submit *)
    unfold submit, on_queue, bind, ret, result, after.
    destruct (buf_write_spec work (_queue p) N Hq)
      as [(_ & _ & E) | [(_ & _ & _ & E) | (q' & Ho' & _ & _ & E & Hq' & Hp & Ho'' & _)]];
      rewrite E; simpl; rewrite ?set_queue_same, ?app_nil_r; auto.
    split; [|auto]. unfold pool_ok; simpl.
    split; [exact Hq'|].
    intros i th Hi Hth. destruct (Hw i th Hi Hth) as [Hcl _]. congruence.
  - (* a turn of a worker *)
    unfold worker_turn, bind, get, ret, result, after. simpl.
    destruct (_workers p !! i) as [[work| |]|] eqn:Ei; simpl;
      rewrite ?app_nil_r; auto.
    unfold on_queue.
    destruct (buf_read_spec work (_queue p) N Hq)
      as [(_ & _ & _ & E) | [(Hcl & Hz & _ & E)
         | (x & q' & Hpos & _ & E & Hq' & Hp & Ho' & _)]];
      rewrite E; simpl; rewrite ?set_queue_same, ?app_nil_r; auto.
    + unfold set_worker, modify; simpl. rewrite length_insert.
      split; [|auto]. unfold pool_ok; simpl.
      split; [exact Hq|]. auto.
    + unfold set_worker, modify; simpl. rewrite length_insert.
      split; [|auto]. unfold pool_ok; simpl.
      split; [exact Hq'|].
      intros k th Hk Hth.
      destruct (Nat.eq_dec i k) as [<-|Hne].
      * rewrite list_lookup_insert_eq in Hk
          by (apply lookup_lt_is_Some_1; eauto).
        injection Hk as <-. destruct Hth; discriminate.
      * rewrite list_lookup_insert_ne in Hk by exact Hne.
        destruct (Hw k th Hk Hth) as [_ Hz]. lia.
  - (* the flag *)
    unfold modify, after; simpl. rewrite app_nil_r.
    split; [|auto]. split; [exact Hq | exact Hw].
  - (* the close *)
    unfold on_queue. rewrite (buf_close (_queue p) Hm).
    unfold after; simpl. rewrite app_nil_r.
    split; [|auto].
    replace (set_queue (buffered_channel.set_open false (_queue p)) p)
      with (set_queue (buffered_channel.set_open false (_queue p))
              (set_active (_active p) p)) by (destruct p; reflexivity).
    apply pool_ok_closed, Hok.
  - (* a join *)
    pose proof (join_settled i p) as Hs.
    split; [exact (pool_ok_settled N _ _ Hok Hs)|].
    destruct Hs as (Eq & _ & El & _). rewrite Eq, El, app_nil_r. auto.
  - (* a whole shutdown *)
    rewrite (shutdown_eq p Hm). unfold result, after. simpl.
    rewrite app_nil_r.
    pose proof (join_all_settled (length (_workers p)) 0
                  (set_queue (buffered_channel.set_open false (_queue p))
                     (set_active false p))) as Hs.
    unfold after in Hs.
    split; [exact (pool_ok_settled N _ _ (pool_ok_closed N p false Hok) Hs)|].
    destruct Hs as (Eq & _ & El & _). rewrite Eq, El. auto.
Qed.

Lemma pool_run_ok N acts :
  forall p,
    pool_ok N p ->
    pool_ok N (pool_run acts p) /\
    length (_workers (pool_run acts p)) = length (_workers p) /\
    tasks_taken acts p ++ buffered_channel.pending (_queue (pool_run acts p))
    = buffered_channel.pending (_queue p) ++ tasks_queued acts p.
Proof.
  induction acts as [|a acts IH]; intros p Hok; simpl.
  - rewrite app_nil_r. auto.
  - destruct (pool_step_ok N a p Hok) as (Hok' & Hl & Hf).
    destruct (IH _ Hok') as (Hok'' & Hl' & Hf').
    split; [exact Hok''|]. split; [congruence|].
    rewrite <- app_assoc, Hf', !app_assoc, Hf. reflexivity.
Qed.

Lemma pool_constructed (d : task) lim reserved workers N p0 :
  threadpool d lim reserved workers N = returned p0 ->
  0 <= N < size_t_modulus ->
  pool_ok N p0 /\ _active p0 = true /\
  buffered_channel.pending (_queue p0) = [] /\
  _workers p0 = repeat (running d) (Z.to_nat (reserved workers)).
Proof.
  unfold threadpool. intros Hctor HN.
  destruct (buffered_channel.buffered_channel d lim N) as [q0| | |] eqn:Hq;
    try discriminate.
  injection Hctor as <-.
  destruct (buf_constructed d lim N q0 Hq HN) as (Hq0 & Ho0 & _ & _ & _ & Hp0).
  unfold pool_ok; simpl.
  split; [|auto]. split; [exact Hq0|].
  intros i th Hi Hth.
  apply list_elem_of_lookup_2, list_elem_of_In, repeat_spec in Hi.
  destruct Hth; congruence.
Qed.

(** A submit to a pool whose queue was closed. *)
Lemma submit_closed N work p :
  pool_ok N p -> buffered_channel._open (_queue p) = false ->
  submit work p = (thrown illegal_write, p, []).
Proof.
  intros (Hq & _) Ho. pose proof Hq as (_ & _ & _ & _ & _ & Hm).
  unfold submit, on_queue, bind.
  rewrite buf_write_closed by assumption. rewrite set_queue_same. reflexivity.
Qed.

Lemma destroy_active p :
  _active p = true -> destroy p = shutdown p.
Proof.
  intros Ha. unfold destroy, bind, get. rewrite Ha.
  destruct (shutdown p) as [[o s] sg]. reflexivity.
Qed.

Lemma destroy_inactive p :
  _active p = false -> destroy p = (returned tt, p, []).
Proof. intros Ha. unfold destroy, bind, get. rewrite Ha. reflexivity. Qed.

(** What [shutdown] comes to on a pool between two steps. *)
Lemma shutdown_spec N p :
  pool_ok N p ->
  let r := shutdown p in
  pool_ok N (after r) /\
  _active (after r) = false /\
  buffered_channel._open (_queue (after r)) = false /\
  buffered_channel.pending (_queue (after r))
  = buffered_channel.pending (_queue p) /\
  length (_workers (after r)) = length (_workers p) /\
  (result r = returned tt ->
   forall k, (k < length (_workers p))%nat ->
             _workers p !! k = Some finished /\
             _workers (after r) !! k = Some joined).
Proof.
  intros Hok r. pose proof Hok as (Hq & _).
  pose proof Hq as (_ & _ & _ & _ & _ & Hm).
  pose proof (pool_step_ok N act_shutdown p Hok) as (Hok' & Hl & _).
  unfold pool_step in Hok', Hl. cbn [act] in Hok', Hl. fold r in Hok', Hl.
  subst r. rewrite (shutdown_eq p Hm) in *. unfold result, after in *.
  simpl fst in *. simpl snd in *.
  set (p1 := set_queue (buffered_channel.set_open false (_queue p))
               (set_active false p)) in *.
  pose proof (join_all_settled (length (_workers p)) 0 p1) as (Eq & Ea & _ & _).
  unfold after in Eq, Ea.
  split; [exact Hok'|]. split; [rewrite Ea; reflexivity|].
  split; [rewrite Eq; reflexivity|]. split; [rewrite Eq; reflexivity|].
  split; [exact Hl|].
  intros Hr k Hk.
  apply (join_all_returned (length (_workers p)) 0 p1 Hr k); [lia | exact Hk].
Qed.

End ThreadPoolRuns.



(** X15. Every task is taken once, in order: on every run of submits,
    worker turns and statements of [shutdown] from the constructor, in any
    interleaving, the tasks the workers have taken to run, followed by the
    tasks still in the queue, are the tasks the submits have put in, in the
    order submitted; and once the loop of a worker has returned (as it has
    for every worker when a [shutdown] returns), the queue is closed and
    empty and every task submitted has been taken. *)
Theorem queued_tasks_are_taken_exactly_once :
  forall (task : Type) (d : task) (lim : vector_limits)
         (reserved : Z -> Z) (workers N : Z) (p0 : threadpool.t task)
         (acts : list (threadpool.action task)),
    0 <= N < size_t_modulus ->
    threadpool.threadpool d lim reserved workers N = returned p0 ->
    let p := threadpool.pool_run acts p0 in
    threadpool.tasks_taken acts p0
      ++ buffered_channel.pending (threadpool._queue p)
    = threadpool.tasks_queued acts p0 /\
    length (threadpool._workers p) = length (threadpool._workers p0) /\
    (forall i th,
        threadpool._workers p !! i = Some th ->
        th = threadpool.finished \/ th = threadpool.joined ->
        threadpool.tasks_taken acts p0 = threadpool.tasks_queued acts p0 /\
        buffered_channel.pending (threadpool._queue p) = [] /\
        buffered_channel._open (threadpool._queue p) = false).
Proof.
  intros task d lim reserved workers N p0 acts HN Hctor p.
  destruct (pool_constructed d lim reserved workers N p0 Hctor HN)
    as (Hok0 & _ & Hp0 & _).
  destruct (pool_run_ok N acts p0 Hok0) as (Hok & Hl & Hf). fold p in Hok, Hl, Hf.
  rewrite Hp0 in Hf. simpl in Hf.
  split; [exact Hf|]. split; [exact Hl|].
  intros i th Hi Hth. destruct Hok as (Hq & Hw).
  destruct (Hw i th Hi Hth) as (Hcl & Hz).
  pose proof (buf_pending_length _ N Hq) as Hlen. rewrite Hz in Hlen.
  destruct (buffered_channel.pending (threadpool._queue p)) as [|x rest];
    [|simpl in Hlen; lia].
  rewrite app_nil_r in Hf. split; [exact Hf|]. split; [reflexivity | exact Hcl].
Qed.

Lemma queued_tasks_are_taken_exactly_once_witness :
  let p0 := {| threadpool._queue :=
                 buffered_channel.set_values [0; 0]
                   {| buffered_channel._values := [];
                      buffered_channel._mutex := false;
                      buffered_channel._read_position := 0;
                      buffered_channel._write_position := 0;
                      buffered_channel._count := 0;
                      buffered_channel._open := true |};
               threadpool._workers := [threadpool.running 0];
               threadpool._active := true |} in
  let acts := [threadpool.act_submit 7; threadpool.act_submit 8;
               threadpool.act_deactivate; threadpool.act_worker 0;
               threadpool.act_close; threadpool.act_join 0;
               threadpool.act_worker 0; threadpool.act_worker 0;
               threadpool.act_join 0] in
  threadpool.tasks_taken acts p0 = threadpool.tasks_queued acts p0 /\
  buffered_channel.pending (threadpool._queue (threadpool.pool_run acts p0)) = [] /\
  buffered_channel._open (threadpool._queue (threadpool.pool_run acts p0)) = false.
Proof.
  assert (HN : 0 <= 2 < size_t_modulus) by (unfold size_t_modulus; lia).
  pose proof (queued_tasks_are_taken_exactly_once Z 0 example_limits
                (fun n => n) 1 2 _
                [threadpool.act_submit 7; threadpool.act_submit 8;
                 threadpool.act_deactivate; threadpool.act_worker 0;
                 threadpool.act_close; threadpool.act_join 0;
                 threadpool.act_worker 0; threadpool.act_worker 0;
                 threadpool.act_join 0]
                HN eq_refl) as (_ & _ & H).
  exact (H 0%nat threadpool.joined eq_refl (or_intror eq_refl)).
Defined.
